(** * Dashboard data layer: formatting utilities and query functions

    A shallow embedding of [app/lib/utils.ts] (formatting arithmetic) and of
    the query module that imports it (the [sql] tagged-template calls with
    their try/catch error translation), followed by the properties the
    specification states about them.

    Conventions of the embedding:
    - a JavaScript [number] that is an integer by construction (page
      numbers of [generatePagination], revenue values, counts) is a [Z];
    - where the source does floating-point arithmetic on a number that
      reaches the caller or the database ([amount / 100],
      [(currentPage - 1) * ITEMS_PER_PAGE]) the number is the exact value
      of a binary64 double, a [Q], and every operation rounds to the
      nearest double ([Double.round]); NaN and the infinities have no
      counterpart in [Q], nor has overflow;
    - [Math.max()] of no arguments is [-Infinity], so the one place that can
      see it ([generateYAxis]) works on [number], integers extended with
      [NegInfinity];
    - the quotient [highestRecord / 1000] of [generateYAxis] is kept
      exact: for a value that is itself a double, rounding the quotient
      does not change its ceiling ([ceil_thousand_double]);
    - JavaScript strings are [string], read as the bytes of their UTF-8
      encoding; arrays are [list];
    - what PostgreSQL leaves to the installation (collation, case folding,
      the order of rows with equal sort keys) is a parameter, an
      [Engine]. *)

From Equations Require Import Equations.
From Stdlib Require Import ZArith QArith Qround Qabs Qreduction List Bool Lia.
From Stdlib Require Import Strings.String Strings.Ascii.
From Stdlib Require Import Numbers.DecimalString.
From Stdlib Require Numbers.DecimalZ.
From Stdlib Require Import Sorting.Sorted Sorting.Permutation.
Import ListNotations.

Local Open Scope string_scope.
Local Open Scope Z_scope.

(** ** Platform primitives used by the utilities *)

(** [String(n)] / template interpolation of an integer-valued number. *)
Definition Number_toString (n : Z) : string :=
  NilEmpty.string_of_int (Z.to_int n).

(** [Math.ceil]. *)
Definition Math_ceil (q : Q) : Z := Qceiling q.

(** [Array.from({ length: len }, (_, i) => f i)]: [ToLength] clamps a
    negative length to 0. *)
Definition Array_from_length {A} (len : Z) (f : Z -> A) : list A :=
  map (fun i => f (Z.of_nat i)) (seq 0 (Z.to_nat len)).

(** ** Binary64 arithmetic

    A finite double is the rational it denotes.  [round] is the rounding
    every IEEE operation ends with: the nearest number with a 53-bit
    significand, ties to the even significand.  The exponent is unbounded
    (no overflow to [Infinity]; the results that occur here are far from
    the subnormal range). *)

Module Double.

(** [d * 2^l <= n], for [l] of either sign. *)
Definition pow2_le (l n d : Z) : bool :=
  if 0 <=? l then d * 2 ^ l <=? n else d <=? n * 2 ^ (- l).

(** [floor (log2 (n / d))] for positive [n] and [d]. *)
Definition binade (n d : Z) : Z :=
  let l := Z.log2 n - Z.log2 d in
  if pow2_le l n d then l else l - 1.

(** The integer nearest to [N / D], ties to even. *)
Definition nearest_even (N D : Z) : Z :=
  let f := N / D in
  match 2 * (N mod D) ?= D with
  | Lt => f
  | Gt => f + 1
  | Eq => if Z.even f then f else f + 1
  end.

(** The double nearest to [n / d]: a significand of 53 bits, scaled by
    [2^e]. *)
Definition round_positive (n d : Z) : Q :=
  let e := binade n d - 52 in
  if 0 <=? e then inject_Z (nearest_even n (d * 2 ^ e) * 2 ^ e)
  else nearest_even (n * 2 ^ (- e)) d # Z.to_pos (2 ^ (- e)).

Definition round (q : Q) : Q :=
  let r := Qred q in
  match Qnum r with
  | 0 => 0%Q
  | Zpos n => Qred (round_positive (Zpos n) (Zpos (Qden r)))
  | Zneg n => Qred (- round_positive (Zpos n) (Zpos (Qden r)))
  end.

Definition sub (x y : Q) : Q := round (x - y).
Definition mul (x y : Q) : Q := round (x * y).
Definition div (x y : Q) : Q := round (x / y).

(** [Number(text)] of the decimal text of an integer, as the driver
    returns a numeric column. *)
Definition of_integer (z : Z) : Q := round (inject_Z z).

(** [10^t], for [t] of either sign. *)
Definition pow10 (t : Z) : Q :=
  if 0 <=? t then inject_Z (10 ^ t) else 1 # Z.to_pos (10 ^ (- t)).

(** The shortest decimal that reads back as the double [x >= 0], which is
    what [String(x)] prints and what the number formatter rounds: going
    from coarse to fine, the first multiple of a power of ten [10^t] that
    rounds to [x]; if both neighbours of [x] do, the closer one, and the
    even one on a tie. *)
Fixpoint shortest_from (fuel : nat) (t : Z) (x : Q) : Q :=
  match fuel with
  | O => x
  | S fuel' =>
      let u := pow10 t in
      let n := Qfloor (x / u)%Q in
      let lo := (inject_Z n * u)%Q in
      let hi := (inject_Z (n + 1) * u)%Q in
      let reads_back c := Qeq_bool (round c) x in
      match reads_back lo, reads_back hi with
      | true, true =>
          match (x - lo ?= hi - x)%Q with
          | Lt => lo
          | Gt => hi
          | Eq => if Z.even n then lo else hi
          end
      | true, false => lo
      | false, true => hi
      | false, false => shortest_from fuel' (t - 1) x
      end
  end.

(** The search starts above the leading digit of [x] and has found a
    decimal by the seventeenth significant digit. *)
Definition shortest (x : Q) : Q :=
  let leading := Z.log2 (Qceiling x) + 1 in
  shortest_from (Z.to_nat (leading + Z.log2 (Zpos (Qden x)) + 20)) leading x.

(** The integer that the text [String(x)] of a number denotes, as a server
    reads it for an integer parameter: there is none when [x] has a
    fraction part or when the text is in exponent form (from [1e21] on).
    An integer of at most [2^53] in magnitude is printed digit for
    digit. *)
Definition bigint_text (x : Q) : option Z :=
  let z := Qfloor x in
  if negb (Qeq_bool x (inject_Z z)) then None
  else if 10 ^ 21 <=? Z.abs z then None
  else if Z.abs z <=? 2 ^ 53 then Some z
  else Some (Z.sgn z * Qfloor (shortest (inject_Z (Z.abs z)))).

End Double.

(** ** [formatCurrency] *)

Module Intl.

(** Insert the en-US grouping separator into a digit string given least
    significant digit first. *)
Fixpoint group_rev (ds : list ascii) : list ascii :=
  match ds with
  | a :: b :: c :: ((_ :: _) as rest) =>
      a :: b :: c :: ","%char :: group_rev rest
  | _ => ds
  end.

Definition grouped (n : Z) : string :=
  string_of_list_ascii
    (rev (group_rev (rev (list_ascii_of_string (Number_toString n))))).

Definition digit (d : Z) : string :=
  String (ascii_of_nat (48 + Z.to_nat d)) EmptyString.

(** Two fraction digits of a count of hundredths below 100. *)
Definition fraction2 (c : Z) : string := digit (c / 10) ++ digit (c mod 10).

(** Round to the nearest integer, ties away from zero (the formatter's
    default rounding mode, [halfExpand]); the argument is non-negative. *)
Definition round_half_expand (q : Q) : Z := Qfloor (q + (1 # 2))%Q.

(** [q.toLocaleString('en-US', { style: 'currency', currency: 'USD' })]:
    sign, currency symbol, grouped integer part, and exactly two fraction
    digits (USD has two minor digits).  The digits are those of the
    shortest decimal that reads back as [q], rounded to hundredths. *)
Definition toLocaleString_en_US_USD (q : Q) : string :=
  let hundredths :=
    round_half_expand (Double.shortest (Qabs q) * (100 # 1))%Q in
  (if Qnum q <? 0 then "-" else "")
    ++ "$" ++ grouped (hundredths / 100)
    ++ "." ++ fraction2 (hundredths mod 100).

End Intl.

(** The argument is an amount in cents; [Double.of_integer] is the
    conversion a numeric string undergoes at the division (the aggregate
    sums arrive as strings) and leaves a number as it is. *)
Definition formatCurrency (amount : Z) : string :=
  Intl.toLocaleString_en_US_USD
    (Double.div (Double.of_integer amount) (100 # 1)).

(** ** [generateYAxis] *)

(** Modelled from the spec: the [Revenue] type of [./definitions], a file
    that is not among the sources ("Revenue: month label, revenue amount
    (integer)"). *)
Record Revenue : Type := { month : string; revenue : Z }.

(** An integer-valued JavaScript number, or the [-Infinity] that
    [Math.max()] returns for an empty argument list. *)
Inductive number : Type :=
| NegInfinity
| Int (z : Z).

Definition number_max (a : number) (b : Z) : number :=
  match a with
  | NegInfinity => Int b
  | Int z => Int (Z.max z b)
  end.

(** [Math.max(...xs)]. *)
Definition Math_max (xs : list Z) : number :=
  fold_left number_max xs NegInfinity.

(** [Math.ceil(h / 1000) * 1000]; both operations fix [-Infinity]. *)
Definition ceil_thousand (h : number) : number :=
  match h with
  | NegInfinity => NegInfinity
  | Int z => Int (Math_ceil (inject_Z z / (1000 # 1))%Q * 1000)
  end.

(** The body of the [for] loop: the template literal [`$${i / 1000}K`].
    [i] is a multiple of 1000 at every iteration (lemma
    [yAxis_loop_multiples] below), so the quotient is an integer. *)
Definition yAxis_label (i : Z) : string :=
  "$" ++ Number_toString (i / 1000) ++ "K".

(** [for (let i = start; i >= 0; i -= 1000) yAxisLabels.push(...)],
    returning the labels pushed. *)
Equations? yAxis_loop (i : Z) : list string by wf (Z.to_nat (i + 1)) lt :=
  yAxis_loop i with Z_le_gt_dec 0 i => {
    | left _ := yAxis_label i :: yAxis_loop (i - 1000);
    | right _ := [] }.
Proof. lia. Qed.

Record YAxis : Type := { yAxisLabels : list string; topLabel : number }.

Definition generateYAxis (revenue_ : list Revenue) : YAxis :=
  let highestRecord := Math_max (map revenue revenue_) in
  let topLabel := ceil_thousand highestRecord in
  let yAxisLabels :=
    match topLabel with
    | NegInfinity => []   (* -Infinity >= 0 is false *)
    | Int top => yAxis_loop top
    end in
  {| yAxisLabels := yAxisLabels; topLabel := topLabel |}.

(** ** [generatePagination] *)

(** An element of the [(number | string)[]] the function returns. *)
Inductive PageItem : Type :=
| PageNumber (n : Z)
| PageText (s : string).

Definition generatePagination (currentPage totalPages : Z) : list PageItem :=
  if totalPages <=? 7 then
    Array_from_length totalPages (fun i => PageNumber (i + 1))
  else if currentPage <=? 3 then
    [PageNumber 1; PageNumber 2; PageNumber 3; PageText "...";
     PageNumber (totalPages - 1); PageNumber totalPages]
  else if currentPage >=? totalPages - 2 then
    [PageNumber 1; PageNumber 2; PageText "...";
     PageNumber (totalPages - 2); PageNumber (totalPages - 1);
     PageNumber totalPages]
  else
    [PageNumber 1; PageText "..."; PageNumber (currentPage - 1);
     PageNumber currentPage; PageNumber (currentPage + 1); PageText "...";
     PageNumber totalPages].

(** ** The relational store

    The tables the queries read.  Their schema is not among the sources:
    the columns are those the SQL text names, typed as the specification's
    data model gives them.  Identifiers are kept as text; [amount] is an
    integer count of cents. *)

(** Modelled from the spec: the status column, "enumerated: paid |
    pending". *)
Inductive Status : Type := pending | paid.

Definition Status_eqb (a b : Status) : bool :=
  match a, b with
  | pending, pending | paid, paid => true
  | _, _ => false
  end.

Definition Status_text (s : Status) : string :=
  match s with pending => "pending" | paid => "paid" end.

Module Date.
(** Modelled from the spec: the DATE column of an invoice, as a calendar
    date. *)
Record t : Type := { year : Z; month : Z; day : Z }.

(** Chronological order. *)
Definition leb (a b : t) : bool :=
  (year a <? year b)
  || ((year a =? year b)
      && ((month a <? month b)
          || ((month a =? month b) && (day a <=? day b)))).

Definition pad (width : nat) (s : string) : string :=
  string_of_list_ascii (repeat "0"%char (width - String.length s)) ++ s.

(** [date::text], the ISO form [YYYY-MM-DD] (years of the common era). *)
Definition text (d : t) : string :=
  pad 4 (Number_toString (year d)) ++ "-"
    ++ pad 2 (Number_toString (month d)) ++ "-"
    ++ pad 2 (Number_toString (day d)).
End Date.

Module customers.
(** Modelled from the spec: a row of the [customers] table ("identifier,
    name, email, image reference"). *)
Record row : Type :=
  { id : string; name : string; email : string; image_url : string }.

Definition eqb (a b : row) : bool :=
  String.eqb (id a) (id b) && String.eqb (name a) (name b)
    && String.eqb (email a) (email b)
    && String.eqb (image_url a) (image_url b).
End customers.

Module invoices.
(** Modelled from the spec: a row of the [invoices] table ("identifier,
    customer reference, amount (integer minor-currency units), due/issue
    date, status"). *)
Record row : Type :=
  { id : string; customer_id : string; amount : Z; date : Date.t;
    status : Status }.
End invoices.

Record Database : Type :=
  { customers_table : list customers.row;
    invoices_table : list invoices.row;
    revenue_table : list Revenue }.

(** ** Result rows

    Modelled from the spec: the row types the queries are typed with
    ([LatestInvoiceRaw], [InvoicesTable], [InvoiceForm], [CustomerField],
    [CustomersTableType]) are declared in [./definitions], which is not
    among the sources.  Each record has the columns of the statement's
    SELECT list, typed as the table columns they come from; numeric columns
    are integers.  A record that the code re-maps with a spread
    ([{ ...row, amount: f(row.amount) }]) is parameterised by the type of
    the re-mapped field. *)

Module LatestInvoice.
Record t (Amount : Type) : Type :=
  { amount : Amount; name : string; image_url : string; email : string;
    id : string }.
Arguments amount {Amount}.
Arguments name {Amount}.
Arguments image_url {Amount}.
Arguments email {Amount}.
Arguments id {Amount}.

Definition with_amount {A B} (f : A -> B) (r : t A) : t B :=
  {| amount := f (amount r); name := name r; image_url := image_url r;
     email := email r; id := id r |}.
End LatestInvoice.

Module InvoicesTable.
Record t : Type :=
  { id : string; amount : Z; date : Date.t; status : Status;
    name : string; email : string; image_url : string }.
End InvoicesTable.

Module InvoiceForm.
Record t (Amount : Type) : Type :=
  { id : string; customer_id : string; amount : Amount; status : Status }.
Arguments id {Amount}.
Arguments customer_id {Amount}.
Arguments amount {Amount}.
Arguments status {Amount}.

Definition with_amount {A B} (f : A -> B) (r : t A) : t B :=
  {| id := id r; customer_id := customer_id r; amount := f (amount r);
     status := status r |}.
End InvoiceForm.

Module CustomerField.
Record t : Type := { id : string; name : string }.
End CustomerField.

Module CustomersTable.
Record t (Total : Type) : Type :=
  { id : string; name : string; email : string; image_url : string;
    total_invoices : Z; total_pending : Total; total_paid : Total }.
Arguments id {Total}.
Arguments name {Total}.
Arguments email {Total}.
Arguments image_url {Total}.
Arguments total_invoices {Total}.
Arguments total_pending {Total}.
Arguments total_paid {Total}.

Definition with_totals {A B} (f : A -> B) (r : t A) : t B :=
  {| id := id r; name := name r; email := email r;
     image_url := image_url r; total_invoices := total_invoices r;
     total_pending := f (total_pending r);
     total_paid := f (total_paid r) |}.
End CustomersTable.

(** A column that may be SQL NULL. *)
Definition nullable (A : Type) : Type := option A.

Record CountRow : Type := { count : nullable Z }.
Record StatusSums : Type := { paid_ : nullable Z; pending_ : nullable Z }.

(** ** The statements the module sends

    One constructor per [sql`...`] template, carrying its bound
    parameters: text for the patterns and the identifier, the constant
    [ITEMS_PER_PAGE] for the limit, and for the offset whatever number the
    page arithmetic produced. *)

Inductive Query : Type :=
| SelectRevenue
| SelectLatestInvoices
| CountInvoices
| CountCustomers
| SumInvoiceStatus
| SelectFilteredInvoices (pattern : string) (limit : Z) (offset : Q)
| CountFilteredInvoices (pattern : string)
| SelectInvoiceById (id : string)
| SelectCustomers
| SelectFilteredCustomers (pattern : string).

Definition row_of (q : Query) : Type :=
  match q with
  | SelectRevenue => Revenue
  | SelectLatestInvoices => LatestInvoice.t Z
  | CountInvoices | CountCustomers | CountFilteredInvoices _ => CountRow
  | SumInvoiceStatus => StatusSums
  | SelectFilteredInvoices _ _ _ => InvoicesTable.t
  | SelectInvoiceById _ => InvoiceForm.t Z
  | SelectCustomers => CustomerField.t
  | SelectFilteredCustomers _ => CustomersTable.t (nullable Z)
  end.

(** An error raised by the database layer. *)
Record PostgresError : Type := { code : string; message : string }.

(** What a database does with a statement: reject it or return rows. *)
Definition Sql : Type := forall q : Query, PostgresError + list (row_of q).

(** ** What the installation decides

    Three things the SQL text leaves to the server it runs on. *)
Record Engine : Type :=
  { (* the characters of a text as [ILIKE] compares them: decoded from the
       database encoding and case-folded under the locale *)
    characters : string -> list N;
    (* [a <= b] under the collation the [name] column sorts by *)
    name_le : string -> string -> bool;
    (* the order in which the sort of a statement meets the rows, which
       decides the order of rows with equal keys; it can change with the
       requested window ([LIMIT], [OFFSET]; none for a statement without
       one), since the window changes the plan *)
    tie_order : forall A : Type, nullable (Z * Q) -> list A -> list A }.

(** ** What PostgreSQL computes for each statement

    The relational reading of the SQL text in the templates, over the
    tables of a [Database], on an [Engine]. *)

Module Pg.

(** *** Text *)

(** A text value holds no NUL byte: a parameter with one is rejected
    ("invalid byte sequence for encoding"). *)
Definition valid_text (s : string) : bool :=
  forallb (fun c => negb (Ascii.eqb c zero)) (list_ascii_of_string s).

Definition invalid_text : PostgresError :=
  {| code := "22021";
     message := "invalid byte sequence for encoding UTF8: 0x00" |}.

(** Case folding of the ASCII letters. *)
Definition lower (c : ascii) : ascii :=
  let n := nat_of_ascii c in
  if ((65 <=? n) && (n <=? 90))%nat then ascii_of_nat (n + 32) else c.

(** The engine of a database in the [C] locale with a single-byte
    encoding: a character is a byte, only the ASCII letters fold, names
    sort by their bytes, and rows with equal keys stay as the scan
    delivers them. *)
Definition C_locale : Engine :=
  {| characters :=
       fun s => map (fun c => N_of_ascii (lower c)) (list_ascii_of_string s);
     name_le := String.leb;
     tie_order := fun A _ rows => rows |}.

(** *** [LIKE] / [ILIKE] *)

Definition percent : N := 37.
Definition underscore : N := 95.
Definition backslash : N := 92.

(** [s LIKE p], on characters: [%] matches any run of characters, [_] any
    single one, and a backslash makes the next pattern character literal.
    (A pattern that ends in a lone backslash is an error in PostgreSQL; the
    patterns built here end in [%], so the case does not arise.) *)
Fixpoint like (p s : list N) {struct p} : bool :=
  match p with
  | [] => match s with [] => true | _ :: _ => false end
  | c :: p' =>
      if N.eqb c percent then
        (fix from (s : list N) : bool :=
           like p' s
           || match s with [] => false | _ :: s' => from s' end) s
      else if N.eqb c underscore then
        match s with [] => false | _ :: s' => like p' s' end
      else if N.eqb c backslash then
        match p' with
        | [] => false
        | e :: p'' =>
            match s with
            | [] => false
            | x :: s' => N.eqb e x && like p'' s'
            end
        end
      else
        match s with
        | [] => false
        | x :: s' => N.eqb c x && like p' s'
        end
  end.

(** [s ILIKE pattern]: [LIKE] on the folded characters.  No comparison
    holds with a pattern that is no text. *)
Definition ilike (e : Engine) (s pattern : string) : bool :=
  valid_text pattern && like (characters e pattern) (characters e s).

(** *** [ORDER BY]

    A stable insertion sort of the rows in the order the engine hands
    them over: the result is ordered by the key, and rows with equal keys
    come in an order that only the engine determines. *)
Section OrderBy.
Context {A : Type} (leb : A -> A -> bool).

Fixpoint insert (x : A) (l : list A) : list A :=
  match l with
  | [] => [x]
  | y :: l' => if leb x y then x :: l else y :: insert x l'
  end.

Definition order_by (l : list A) : list A := fold_right insert [] l.
End OrderBy.

(** *** [LIMIT n OFFSET m]

    The offset is a [bigint] parameter; the driver sends the number as the
    text [String(m)], which the server parses. *)
Definition limit_offset {A} (limit : Z) (offset : Q) (rows : list A)
  : PostgresError + list A :=
  match Double.bigint_text offset with
  | None =>
      inl {| code := "22P02";
             message := "invalid input syntax for type bigint" |}
  | Some m =>
      if (m <? - 2 ^ 63) || (2 ^ 63 <=? m) then
        inl {| code := "22003";
               message := "value out of range for type bigint" |}
      else if limit <? 0 then
        inl {| code := "2201W"; message := "LIMIT must not be negative" |}
      else if m <? 0 then
        inl {| code := "2201X"; message := "OFFSET must not be negative" |}
      else inr (firstn (Z.to_nat limit) (skipn (Z.to_nat m) rows))
  end.

(** *** Aggregates *)

(** [COUNT( * )] over a row set. *)
Definition count_star {A} (rows : list A) : Z :=
  Z.of_nat (List.length rows).

(** [SUM(e)]: NULL over no rows, otherwise the sum. *)
Definition sum {A} (e : A -> Z) (rows : list A) : nullable Z :=
  match rows with
  | [] => None
  | _ :: _ => Some (fold_right (fun r acc => e r + acc) 0 rows)
  end.

(** *** [FROM invoices JOIN customers ON invoices.customer_id = customers.id] *)
Definition invoices_join_customers (d : Database)
  : list (invoices.row * customers.row) :=
  flat_map
    (fun i =>
       map (pair i)
         (filter (fun c => String.eqb (invoices.customer_id i) (customers.id c))
            (customers_table d)))
    (invoices_table d).

(** The [WHERE] clause shared by the two invoice search statements. *)
Definition invoice_matches (e : Engine) (pattern : string)
    (r : invoices.row * customers.row) : bool :=
  let (i, c) := r in
  ilike e (customers.name c) pattern
  || ilike e (customers.email c) pattern
  || ilike e (Number_toString (invoices.amount i)) pattern
  || ilike e (Date.text (invoices.date i)) pattern
  || ilike e (Status_text (invoices.status i)) pattern.

(** [ORDER BY invoices.date DESC] on joined rows. *)
Definition date_desc (a b : invoices.row * customers.row) : bool :=
  Date.leb (invoices.date (fst b)) (invoices.date (fst a)).

Definition invoices_table_row (r : invoices.row * customers.row)
  : InvoicesTable.t :=
  let (i, c) := r in
  {| InvoicesTable.id := invoices.id i;
     InvoicesTable.amount := invoices.amount i;
     InvoicesTable.date := invoices.date i;
     InvoicesTable.status := invoices.status i;
     InvoicesTable.name := customers.name c;
     InvoicesTable.email := customers.email c;
     InvoicesTable.image_url := customers.image_url c |}.

Definition latest_invoice_row (r : invoices.row * customers.row)
  : LatestInvoice.t Z :=
  let (i, c) := r in
  {| LatestInvoice.amount := invoices.amount i;
     LatestInvoice.name := customers.name c;
     LatestInvoice.image_url := customers.image_url c;
     LatestInvoice.email := customers.email c;
     LatestInvoice.id := invoices.id i |}.

(** [CASE WHEN status = s THEN amount ELSE 0 END]. *)
Definition amount_if (s : Status) (i : invoices.row) : Z :=
  if Status_eqb (invoices.status i) s then invoices.amount i else 0.

(** *** [FROM customers LEFT JOIN invoices ON customers.id = invoices.customer_id]

    A customer without invoices is kept, paired with an all-NULL invoice
    ([None]). *)
Definition customers_left_join_invoices (d : Database)
  : list (customers.row * nullable invoices.row) :=
  flat_map
    (fun c =>
       match filter (fun i => String.eqb (customers.id c) (invoices.customer_id i))
               (invoices_table d) with
       | [] => [(c, None)]
       | matched => map (fun i => (c, Some i)) matched
       end)
    (customers_table d).

Definition customer_matches (e : Engine) (pattern : string)
    (r : customers.row * nullable invoices.row) : bool :=
  ilike e (customers.name (fst r)) pattern
  || ilike e (customers.email (fst r)) pattern.

(** The keys of [GROUP BY customers.id, customers.name, customers.email,
    customers.image_url], each once, in order of first appearance. *)
Fixpoint group_keys (cs : list customers.row) : list customers.row :=
  match cs with
  | [] => []
  | c :: cs' =>
      c :: filter (fun c' => negb (customers.eqb c' c)) (group_keys cs')
  end.

(** The [CASE] of the customer aggregates on a left-joined row: the
    comparison with a NULL status is not true, so the [ELSE] applies. *)
Definition joined_amount_if (s : Status)
    (r : customers.row * nullable invoices.row) : Z :=
  match snd r with
  | Some i => amount_if s i
  | None => 0
  end.

(** [invoices.id IS NOT NULL] on a left-joined row. *)
Definition has_invoice (r : customers.row * nullable invoices.row) : bool :=
  match snd r with Some _ => true | None => false end.

Definition customers_table_row
    (rows : list (customers.row * nullable invoices.row))
    (key : customers.row) : CustomersTable.t (nullable Z) :=
  let group := filter (fun r => customers.eqb (fst r) key) rows in
  {| CustomersTable.id := customers.id key;
     CustomersTable.name := customers.name key;
     CustomersTable.email := customers.email key;
     CustomersTable.image_url := customers.image_url key;
     (* COUNT(invoices.id) counts the rows whose invoices.id is not NULL *)
     CustomersTable.total_invoices :=
       count_star (filter has_invoice group);
     CustomersTable.total_pending := sum (joined_amount_if pending) group;
     CustomersTable.total_paid := sum (joined_amount_if paid) group |}.

(** [ORDER BY customers.name ASC], under the collation of the engine. *)
Definition name_asc (e : Engine) {T} (a b : CustomersTable.t T) : bool :=
  name_le e (CustomersTable.name a) (CustomersTable.name b).

(** *** The statements

    A statement whose pattern is no text is rejected when its parameters
    are read.  The identifier of [SelectInvoiceById] is compared as text,
    as it is given: the type of the [id] column is not among the sources,
    and which identifiers the server refuses to read depends on it. *)

Definition matching_invoices (e : Engine) (d : Database) (pattern : string)
  : list (invoices.row * customers.row) :=
  filter (invoice_matches e pattern) (invoices_join_customers d).

Definition execute (e : Engine) (d : Database) : Sql :=
  fun q =>
    match q as q0 return PostgresError + list (row_of q0) with
    | SelectRevenue => inr (revenue_table d)
    | SelectLatestInvoices =>
        inr (map latest_invoice_row
               (firstn 5
                  (order_by date_desc
                     (tie_order e _ (Some (5, 0%Q))
                        (invoices_join_customers d)))))
    | CountInvoices =>
        inr [ {| count := Some (count_star (invoices_table d)) |} ]
    | CountCustomers =>
        inr [ {| count := Some (count_star (customers_table d)) |} ]
    | SumInvoiceStatus =>
        inr [ {| paid_ := sum (amount_if paid) (invoices_table d);
                 pending_ := sum (amount_if pending) (invoices_table d) |} ]
    | SelectFilteredInvoices pattern limit offset =>
        if valid_text pattern then
          match limit_offset limit offset
                  (order_by date_desc
                     (tie_order e _ (Some (limit, offset))
                        (matching_invoices e d pattern))) with
          | inl error => inl error
          | inr rows => inr (map invoices_table_row rows)
          end
        else inl invalid_text
    | CountFilteredInvoices pattern =>
        if valid_text pattern then
          inr [ {| count :=
                     Some (count_star (matching_invoices e d pattern)) |} ]
        else inl invalid_text
    | SelectInvoiceById id =>
        inr (map (fun i =>
                    {| InvoiceForm.id := invoices.id i;
                       InvoiceForm.customer_id := invoices.customer_id i;
                       InvoiceForm.amount := invoices.amount i;
                       InvoiceForm.status := invoices.status i |})
               (filter (fun i => String.eqb (invoices.id i) id)
                  (invoices_table d)))
    | SelectCustomers =>
        inr (order_by
               (fun a b =>
                  name_le e (CustomerField.name a) (CustomerField.name b))
               (tie_order e _ None
                  (map (fun c => {| CustomerField.id := customers.id c;
                                    CustomerField.name := customers.name c |})
                     (customers_table d))))
    | SelectFilteredCustomers pattern =>
        if valid_text pattern then
          let rows :=
            filter (customer_matches e pattern)
              (customers_left_join_invoices d) in
          inr (order_by (name_asc e)
                 (tie_order e _ None
                    (map (customers_table_row rows)
                       (group_keys (map fst rows)))))
        else inl invalid_text
    end.

End Pg.

(** ** Exceptions, promises and the [async] functions' effects *)

Inductive JsError : Type :=
| DatabaseError (cause : PostgresError)   (* a rejection of an [sql] call *)
| TypeError (message : string)            (* property read on [undefined] *)
| Error (message : string).               (* [new Error(message)] *)

(** What an [async] function can touch besides its result: the statements
    handed to the database so far, and the lines written with
    [console.error]. *)
Record World : Type :=
  { issued : list Query; console : list (string * JsError) }.

Definition Async (A : Type) : Type := World -> (JsError + A) * World.

(** A promise, by the way it settles. *)
Definition Promise (A : Type) : Type := (JsError + A)%type.

Definition ret {A} (a : A) : Async A := fun w => (inr a, w).

Definition throw {A} (e : JsError) : Async A := fun w => (inl e, w).

Definition bind {A B} (m : Async A) (k : A -> Async B) : Async B :=
  fun w =>
    match m w with
    | (inl e, w') => (inl e, w')
    | (inr a, w') => k a w'
    end.

Declare Scope async_scope.
Delimit Scope async_scope with async.
Notation "x <- m ;; k" := (bind m (fun x => k))
  (at level 100, m at next level, right associativity) : async_scope.
Notation "m ;;; k" := (bind m (fun _ => k))
  (at level 100, right associativity) : async_scope.
Local Open Scope async_scope.

(** [try { body } catch (error) { handler error }]. *)
Definition try_catch {A} (body : Async A) (handler : JsError -> Async A)
  : Async A :=
  fun w =>
    match body w with
    | (inl e, w') => handler e w'
    | (inr a, w') => (inr a, w')
    end.

Definition console_error (label : string) (e : JsError) : Async unit :=
  fun w =>
    (inr tt, {| issued := issued w; console := console w ++ [(label, e)] |}).

(** [await p]. *)
Definition await {A} (p : Promise A) : Async A := fun w => (p, w).

(** [rows[0]]: the first row, or [undefined]. *)
Definition first {A} (rows : list A) : option A := hd_error rows.

(** [(rows[0]).field]: reading a property of [undefined] throws. *)
Definition property {A B} (o : option A) (field : A -> B) : Async B :=
  match o with
  | Some a => ret (field a)
  | None => throw (TypeError "Cannot read properties of undefined")
  end.

(** [v ?? d]. *)
Definition nullish {A} (v : nullable A) (d : A) : A :=
  match v with Some a => a | None => d end.

(** [Number(v)] of a numeric column: NULL converts to 0. *)
Definition Number_ (v : nullable Z) : Z := nullish v 0.

(** The rejection reasons among settled promises, in argument order. *)
Definition reasons (settled : list (option JsError)) : list JsError :=
  flat_map (fun r => match r with Some e => [e] | None => [] end) settled.

Definition rejection {A} (p : Promise A) : option JsError :=
  match p with inl e => Some e | inr _ => None end.

(** [Promise.all([p1, p2, p3])]: fulfils with all three values, or rejects
    with the reason of whichever rejected promise settles first; [race]
    stands for that scheduling choice. *)
Definition Promise_all3 {A B C} (race : nat)
    (p1 : Promise A) (p2 : Promise B) (p3 : Promise C)
  : Promise (A * B * C) :=
  match p1, p2, p3 with
  | inr a, inr b, inr c => inr (a, b, c)
  | _, _, _ =>
      let rs := reasons [rejection p1; rejection p2; rejection p3] in
      inl (nth (race mod List.length rs) rs
             (TypeError "unreachable: some promise rejected"))
  end.

(** ** The query functions *)

Definition ITEMS_PER_PAGE : Z := 6.

Record CardData : Type :=
  { numberOfCustomers : Z; numberOfInvoices : Z;
    totalPaidInvoices : string; totalPendingInvoices : string }.

Section Queries.

(** The connection: [const sql = postgres(process.env.POSTGRES_URL!, ...)]. *)
Variable db : Sql.

(** The order in which concurrently issued statements settle. *)
Variable race : nat.

(** Calling the tagged template hands the statement to the database and
    yields a promise for its rows. *)
Definition sql (q : Query) : Async (Promise (list (row_of q))) :=
  fun w =>
    (inr match db q with
         | inl e => inl (DatabaseError e)
         | inr rows => inr rows
         end,
     {| issued := issued w ++ [q]; console := console w |}).

(** [await sql`...`]. *)
Definition await_sql (q : Query) : Async (list (row_of q)) :=
  p <- sql q ;; await p.

Definition fetchRevenue : Async (list Revenue) :=
  try_catch
    (data <- await_sql SelectRevenue ;;
     ret data)
    (fun error =>
       console_error "Database Error:" error ;;;
       throw (Error "Failed to fetch revenue data.")).

Definition fetchLatestInvoices : Async (list (LatestInvoice.t string)) :=
  try_catch
    (data <- await_sql SelectLatestInvoices ;;
     let latestInvoices :=
       map (LatestInvoice.with_amount formatCurrency) data in
     ret latestInvoices)
    (fun error =>
       console_error "Database Error:" error ;;;
       throw (Error "Failed to fetch the latest invoices.")).

Definition fetchCardData : Async CardData :=
  try_catch
    (invoiceCountPromise <- sql CountInvoices ;;
     customerCountPromise <- sql CountCustomers ;;
     invoiceStatusPromise <- sql SumInvoiceStatus ;;
     data <- await (Promise_all3 race invoiceCountPromise
                      customerCountPromise invoiceStatusPromise) ;;
     let '(data0, data1, data2) := data in
     count0 <- property (first data0) count ;;
     let numberOfInvoices := Number_ (Some (nullish count0 0)) in
     count1 <- property (first data1) count ;;
     let numberOfCustomers := Number_ (Some (nullish count1 0)) in
     paid0 <- property (first data2) paid_ ;;
     let totalPaidInvoices := formatCurrency (nullish paid0 0) in
     pending0 <- property (first data2) pending_ ;;
     let totalPendingInvoices := formatCurrency (nullish pending0 0) in
     ret {| numberOfCustomers := numberOfCustomers;
            numberOfInvoices := numberOfInvoices;
            totalPaidInvoices := totalPaidInvoices;
            totalPendingInvoices := totalPendingInvoices |})
    (fun error =>
       console_error "Database Error:" error ;;;
       throw (Error "Failed to fetch card data.")).

(** [currentPage] is whatever number the caller passes: nothing checks
    that it is a page number. *)
Definition fetchFilteredInvoices (query : string) (currentPage : Q)
  : Async (list InvoicesTable.t) :=
  let offset :=
    Double.mul (Double.sub currentPage 1) (inject_Z ITEMS_PER_PAGE) in
  try_catch
    (invoices <- await_sql
                   (SelectFilteredInvoices ("%" ++ query ++ "%")
                      ITEMS_PER_PAGE offset) ;;
     ret invoices)
    (fun error =>
       console_error "Database Error:" error ;;;
       throw (Error "Failed to fetch invoices.")).

Definition fetchInvoicesPages (query : string) : Async Z :=
  try_catch
    (data <- await_sql (CountFilteredInvoices ("%" ++ query ++ "%")) ;;
     count0 <- property (first data) count ;;
     let totalPages :=
       Math_ceil
         (Double.div (Double.of_integer (Number_ count0))
            (inject_Z ITEMS_PER_PAGE)) in
     ret totalPages)
    (fun error =>
       console_error "Database Error:" error ;;;
       throw (Error "Failed to fetch total number of invoices.")).

(** The result is [invoice[0]], which is [undefined] ([None]) when the
    mapped array is empty. *)
Definition fetchInvoiceById (id : string)
  : Async (option (InvoiceForm.t Q)) :=
  try_catch
    (data <- await_sql (SelectInvoiceById id) ;;
     let invoice :=
       map (InvoiceForm.with_amount
              (fun amount => Double.div (Double.of_integer amount) (100 # 1)))
           data in
     ret (first invoice))
    (fun error =>
       console_error "Database Error:" error ;;;
       throw (Error "Failed to fetch invoice.")).

Definition fetchCustomers : Async (list CustomerField.t) :=
  try_catch
    (customers <- await_sql SelectCustomers ;;
     ret customers)
    (fun err =>
       console_error "Database Error:" err ;;;
       throw (Error "Failed to fetch all customers.")).

Definition fetchFilteredCustomers (query : string)
  : Async (list (CustomersTable.t string)) :=
  try_catch
    (data <- await_sql (SelectFilteredCustomers ("%" ++ query ++ "%")) ;;
     let customers :=
       map (CustomersTable.with_totals
              (fun total => formatCurrency (Number_ total))) data in
     ret customers)
    (fun err =>
       console_error "Database Error:" err ;;;
       throw (Error "Failed to fetch customer table.")).

End Queries.

(** * Specification-side definitions

    Predicates that follow the specification's wording, and the sample data
    the worked examples run on. *)

(** The pagination window, case by case as the specification lists it. *)
Inductive PaginationWindow (currentPage totalPages : Z)
  : list PageItem -> Prop :=
| window_all :
    totalPages <= 7 ->
    PaginationWindow currentPage totalPages
      (map (fun k => PageNumber (Z.of_nat k)) (seq 1 (Z.to_nat totalPages)))
| window_start :
    totalPages > 7 -> currentPage <= 3 ->
    PaginationWindow currentPage totalPages
      [PageNumber 1; PageNumber 2; PageNumber 3; PageText "...";
       PageNumber (totalPages - 1); PageNumber totalPages]
| window_end :
    totalPages > 7 -> currentPage >= totalPages - 2 ->
    PaginationWindow currentPage totalPages
      [PageNumber 1; PageNumber 2; PageText "...";
       PageNumber (totalPages - 2); PageNumber (totalPages - 1);
       PageNumber totalPages]
| window_middle :
    totalPages > 7 -> currentPage > 3 -> currentPage < totalPages - 2 ->
    PaginationWindow currentPage totalPages
      [PageNumber 1; PageText "..."; PageNumber (currentPage - 1);
       PageNumber currentPage; PageNumber (currentPage + 1); PageText "...";
       PageNumber totalPages].

(** [m] is the greatest element of [xs]. *)
Definition is_maximum (m : Z) (xs : list Z) : Prop :=
  In m xs /\ forall x, In x xs -> x <= m.

(** [top] is [m] rounded up to the nearest multiple of 1000. *)
Definition rounded_up_to_thousand (m top : Z) : Prop :=
  (1000 | top) /\ m <= top < m + 1000.

(** [labels] runs from [top] down to 0 inclusive in steps of 1000, each
    value [v] rendered as [$<v/1000>K]. *)
Definition descends_to_zero (top : Z) (labels : list string) : Prop :=
  exists n : nat,
    top = 1000 * Z.of_nat n
    /\ labels
       = map (fun k => "$" ++ Number_toString (Z.of_nat k) ++ "K")
           (rev (seq 0 (S n))).

(** The Y-axis contract as the specification words it, for one input. *)
Definition YAxis_contract (revenue_ : list Revenue) : Prop :=
  exists m top,
    is_maximum m (map revenue revenue_)
    /\ rounded_up_to_thousand m top
    /\ topLabel (generateYAxis revenue_) = Int top
    /\ descends_to_zero top (yAxisLabels (generateYAxis revenue_)).

Definition revenue_of (v : Z) : Revenue := {| month := "Jan"; revenue := v |}.

(** The exported query functions, applied to their arguments. *)
Inductive QueryFunction : Type :=
| FetchRevenue
| FetchLatestInvoices
| FetchCardData
| FetchFilteredInvoices (query : string) (currentPage : Q)
| FetchInvoicesPages (query : string)
| FetchInvoiceById (id : string)
| FetchCustomers
| FetchFilteredCustomers (query : string).

(** The error a call ended with, if it threw. *)
Definition thrown {A} (r : (JsError + A) * World) : option JsError :=
  match fst r with inl e => Some e | inr _ => None end.

(** Run a query function, keeping whether it threw and the world after. *)
Definition run (db : Sql) (race : nat) (f : QueryFunction) (w : World)
  : option JsError * World :=
  match f with
  | FetchRevenue => let r := fetchRevenue db w in (thrown r, snd r)
  | FetchLatestInvoices =>
      let r := fetchLatestInvoices db w in (thrown r, snd r)
  | FetchCardData => let r := fetchCardData db race w in (thrown r, snd r)
  | FetchFilteredInvoices query currentPage =>
      let r := fetchFilteredInvoices db query currentPage w in
      (thrown r, snd r)
  | FetchInvoicesPages query =>
      let r := fetchInvoicesPages db query w in (thrown r, snd r)
  | FetchInvoiceById id =>
      let r := fetchInvoiceById db id w in (thrown r, snd r)
  | FetchCustomers => let r := fetchCustomers db w in (thrown r, snd r)
  | FetchFilteredCustomers query =>
      let r := fetchFilteredCustomers db query w in (thrown r, snd r)
  end.

(** The database calls each function makes. *)
Definition database_calls (f : QueryFunction) : list Query :=
  match f with
  | FetchRevenue => [SelectRevenue]
  | FetchLatestInvoices => [SelectLatestInvoices]
  | FetchCardData => [CountInvoices; CountCustomers; SumInvoiceStatus]
  | FetchFilteredInvoices query currentPage =>
      [SelectFilteredInvoices ("%" ++ query ++ "%") ITEMS_PER_PAGE
         (Double.mul (Double.sub currentPage 1) (inject_Z ITEMS_PER_PAGE))]
  | FetchInvoicesPages query => [CountFilteredInvoices ("%" ++ query ++ "%")]
  | FetchInvoiceById id => [SelectInvoiceById id]
  | FetchCustomers => [SelectCustomers]
  | FetchFilteredCustomers query =>
      [SelectFilteredCustomers ("%" ++ query ++ "%")]
  end.

(** The fixed user-facing message of each function. *)
Definition failure_message (f : QueryFunction) : string :=
  match f with
  | FetchRevenue => "Failed to fetch revenue data."
  | FetchLatestInvoices => "Failed to fetch the latest invoices."
  | FetchCardData => "Failed to fetch card data."
  | FetchFilteredInvoices _ _ => "Failed to fetch invoices."
  | FetchInvoicesPages _ => "Failed to fetch total number of invoices."
  | FetchInvoiceById _ => "Failed to fetch invoice."
  | FetchCustomers => "Failed to fetch all customers."
  | FetchFilteredCustomers _ => "Failed to fetch customer table."
  end.

(** A world in which nothing has happened yet. *)
Definition fresh : World := {| issued := []; console := [] |}.



(** What holds of the [Engine] of a server: a sort sees all the rows, each
    once; the collation is a total preorder; the pattern [%query%] is the
    characters of the query between two [%]; folding ignores the case of
    the ASCII letters, and on a text of ASCII characters it does nothing
    else (as in every locale but the Turkic ones, which fold [I] to a
    dotless i). *)
Record Lawful (e : Engine) : Prop :=
  { tie_order_permutation :
      forall (A : Type) (window : nullable (Z * Q)) (rows : list A),
        Permutation (tie_order e A window rows) rows;
    name_le_total :
      forall a b, name_le e a b = true \/ name_le e b a = true;
    name_le_transitive :
      forall a b c,
        name_le e a b = true -> name_le e b c = true ->
        name_le e a c = true;
    characters_pattern :
      forall query,
        characters e ("%" ++ query ++ "%")
        = (Pg.percent :: characters e query ++ [Pg.percent])%list;
    characters_fold :
      forall s t,
        map Pg.lower (list_ascii_of_string s)
        = map Pg.lower (list_ascii_of_string t) ->
        characters e s = characters e t;
    characters_ascii :
      forall s,
        Forall (fun c => (nat_of_ascii c < 128)%nat)
          (list_ascii_of_string s) ->
        characters e s
        = map (fun c => N_of_ascii (Pg.lower c)) (list_ascii_of_string s) }.

(** A small store: two customers, one of them without invoices, and eight
    invoices (one of them for a customer that is not in the store). *)
Module Sample.
Definition alice : customers.row :=
  {| customers.id := "c1"; customers.name := "Alice";
     customers.email := "alice@example.com";
     customers.image_url := "/customers/alice.png" |}.

Definition bob : customers.row :=
  {| customers.id := "c2"; customers.name := "Bob";
     customers.email := "bob@example.com";
     customers.image_url := "/customers/bob.png" |}.

Definition invoice (id customer_id : string) (amount y m d : Z)
    (status : Status) : invoices.row :=
  {| invoices.id := id; invoices.customer_id := customer_id;
     invoices.amount := amount;
     invoices.date := {| Date.year := y; Date.month := m; Date.day := d |};
     invoices.status := status |}.

Definition store : Database :=
  {| customers_table := [alice; bob];
     invoices_table :=
       [invoice "i1" "c1" 1500 2023 1 5 paid;
        invoice "i2" "c1" 2500 2023 3 5 pending;
        invoice "i3" "c1" 100 2022 12 31 paid;
        invoice "i4" "c1" 100 2022 12 30 paid;
        invoice "i5" "c1" 100 2022 12 29 paid;
        invoice "i6" "c1" 100 2022 12 28 paid;
        invoice "i7" "c1" 100 2021 12 28 paid;
        invoice "i8" "c9" 100 2021 12 28 paid];
     revenue_table := [revenue_of 1200; revenue_of 4500; revenue_of 2300] |}.

Definition timeout : PostgresError :=
  {| code := "57014"; message := "canceling statement due to timeout" |}.

(** The store, except that the status aggregate is rejected. *)
Definition sums_rejected : Sql :=
  fun q =>
    match q as q0 return PostgresError + list (row_of q0) with
    | SumInvoiceStatus => inl timeout
    | q' => Pg.execute Pg.C_locale store q'
    end.
End Sample.


(** Rows ordered by invoice date, descending: every row is dated no
    earlier than each row after it. *)
Definition newest_first (rows : list InvoicesTable.t) : Prop :=
  StronglySorted
    (fun a b => Date.leb (InvoicesTable.date b) (InvoicesTable.date a) = true)
    rows.

(** The invoices that have a customer, each with that customer: the
    pairs of an invoice and a customer in which the invoice refers to the
    customer. *)
Definition invoices_with_customers (d : Database)
  : list (invoices.row * customers.row) :=
  filter
    (fun r => String.eqb (invoices.customer_id (fst r)) (customers.id (snd r)))
    (list_prod (invoices_table d) (customers_table d)).

(** The five columns a search looks at, as text. *)
Definition searched_columns (r : invoices.row * customers.row)
  : list string :=
  [customers.name (snd r); customers.email (snd r);
   Number_toString (invoices.amount (fst r));
   Date.text (invoices.date (fst r));
   Status_text (invoices.status (fst r))].

(** The row of the invoice list for an invoice and its customer. *)
Definition listed_invoice (r : invoices.row * customers.row)
  : InvoicesTable.t :=
  {| InvoicesTable.id := invoices.id (fst r);
     InvoicesTable.amount := invoices.amount (fst r);
     InvoicesTable.date := invoices.date (fst r);
     InvoicesTable.status := invoices.status (fst r);
     InvoicesTable.name := customers.name (snd r);
     InvoicesTable.email := customers.email (snd r);
     InvoicesTable.image_url := customers.image_url (snd r) |}.

(** The rows that match a search, in no particular order: those with a
    column that is [ILIKE] the query between two [%]. *)
Definition searched_rows (e : Engine) (d : Database) (query : string)
  : list InvoicesTable.t :=
  map listed_invoice
    (filter
       (fun r =>
          existsb (fun column => Pg.ilike e column ("%" ++ query ++ "%"))
            (searched_columns r))
       (invoices_with_customers d)).

(** [q] is a prefix of [s]. *)
Fixpoint starts_with (q s : list N) : bool :=
  match q, s with
  | [], _ => true
  | _ :: _, [] => false
  | c :: q', x :: s' => N.eqb c x && starts_with q' s'
  end.

(** [q] occurs in [s] as a contiguous run. *)
Fixpoint occurs (q s : list N) : bool :=
  starts_with q s
  || match s with [] => false | _ :: s' => occurs q s' end.

(** The rows under the case-insensitive substring filter: those with a
    column that contains the query, letter case aside. *)
Definition substring_rows (e : Engine) (d : Database) (query : string)
  : list InvoicesTable.t :=
  map listed_invoice
    (filter
       (fun r =>
          existsb
            (fun column => occurs (characters e query) (characters e column))
            (searched_columns r))
       (invoices_with_customers d)).

(** The contract of a search page as the specification words it, for one
    call: at most 6 rows come back, newest first, and they are the window
    at offset [(page - 1) * 6] of the matching rows in an order by date,
    descending. *)
Definition page_contract (e : Engine) (d : Database) (query : string)
    (page : Z) (w : World) : Prop :=
  exists rows ordered,
    fst (fetchFilteredInvoices (Pg.execute e d) query (inject_Z page) w)
    = inr rows
    /\ (List.length rows <= 6)%nat
    /\ newest_first rows
    /\ Permutation ordered (searched_rows e d query)
    /\ newest_first ordered
    /\ rows = firstn 6 (skipn (Z.to_nat ((page - 1) * 6)) ordered).

(** The page count as the specification words it, for one call: the
    number of rows under the case-insensitive substring filter, divided by
    6 and rounded up. *)
Definition pages_contract (e : Engine) (d : Database) (query : string)
    (w : World) : Prop :=
  fst (fetchInvoicesPages (Pg.execute e d) query w)
  = inr ((Z.of_nat (List.length (substring_rows e d query)) + 5) / 6).

(** The window of [rows] that page [page] shows. *)
Definition page_window {A} (page : Z) (rows : list A) : list A :=
  firstn 6 (skipn (Z.to_nat ((page - 1) * 6)) rows).

(** The listing row of a customer without invoices. *)
Definition no_invoices_row (c : customers.row) : CustomersTable.t string :=
  {| CustomersTable.id := customers.id c;
     CustomersTable.name := customers.name c;
     CustomersTable.email := customers.email c;
     CustomersTable.image_url := customers.image_url c;
     CustomersTable.total_invoices := 0;
     CustomersTable.total_pending := "$0.00";
     CustomersTable.total_paid := "$0.00" |}.

(** A pattern character that [LIKE] reads as itself. *)
Definition literal (c : N) : bool :=
  negb (N.eqb c Pg.percent || N.eqb c Pg.underscore || N.eqb c Pg.backslash).

Definition is_comma (c : ascii) : bool := Ascii.eqb c ",".

(** [whole] shows the non-negative integer [n] the en-US way: without its
    separators it is the decimal numeral of [n]; counted from the right,
    exactly every fourth character is a separator; and no separator
    leads. *)
Definition grouped_in_threes (n : Z) (whole : string) : Prop :=
  let cs := list_ascii_of_string whole in
  string_of_list_ascii (filter (fun c => negb (is_comma c)) cs)
  = Number_toString n
  /\ (forall (k : nat) (c : ascii),
         nth_error (rev cs) k = Some c ->
         (is_comma c = true <-> (k mod 4 = 3)%nat))
  /\ hd_error cs <> Some ","%char.

(** The largest amount of cents, [100 * 2^46], up to which dividing by 100
    in doubles loses less than half a cent. *)
Definition exact_cents : Z := 7036874417766400.

(** [s] is the en-US rendering of [amount] cents as US dollars: a minus
    sign when negative, the dollar sign, the whole dollars grouped in
    threes, a point, and the two digits of the remaining cents. *)
Definition USD_string (amount : Z) (s : string) : Prop :=
  exists (whole : string) (d1 d2 : Z),
    s = (if amount <? 0 then "-" else "")
          ++ "$" ++ whole ++ "." ++ Number_toString d1 ++ Number_toString d2
    /\ grouped_in_threes (Z.abs amount / 100) whole
    /\ 0 <= d1 <= 9 /\ 0 <= d2 <= 9
    /\ 10 * d1 + d2 = Z.abs amount mod 100.

(** The page numbers of a pagination window, in the order shown. *)
Definition page_numbers (items : list PageItem) : list Z :=
  flat_map
    (fun item => match item with PageNumber n => [n] | PageText _ => [] end)
    items.

(** The sum of the amounts of the invoices in a given status. *)
Definition total_amount (s : Status) (invs : list invoices.row) : Z :=
  fold_right Z.add 0
    (map invoices.amount
       (filter (fun i => Status_eqb (invoices.status i) s) invs)).

(** The invoices of the store that refer to customer [c]. *)
Definition invoices_of (d : Database) (c : customers.row)
  : list invoices.row :=
  filter (fun i => String.eqb (customers.id c) (invoices.customer_id i))
    (invoices_table d).

(** The customer a listing row stands for. *)
Definition listed_customer {T} (r : CustomersTable.t T) : customers.row :=
  {| customers.id := CustomersTable.id r;
     customers.name := CustomersTable.name r;
     customers.email := CustomersTable.email r;
     customers.image_url := CustomersTable.image_url r |}.


(** [q] occurs in [s] as a contiguous run. *)
Definition occurs_in (q s : list N) : Prop :=
  exists pre post, s = (pre ++ q ++ post)%list.

(** A database whose count statement resolves without any row. *)
Definition count_without_rows : Sql :=
  fun q =>
    match q as q0 return PostgresError + list (row_of q0) with
    | CountFilteredInvoices _ => inr []
    | q' => Pg.execute Pg.C_locale Sample.store q'
    end.

(** The rows customer [c] contributes to the left join: one per invoice,
    or a single row with a NULL invoice. *)
Definition joined_rows (d : Database) (c : customers.row)
  : list (customers.row * nullable invoices.row) :=
  match invoices_of d c with
  | [] => [(c, None)]
  | matched => map (fun i => (c, Some i)) matched
  end.

(** The rows a client collects by asking for pages 1 to [n] in turn. *)
Definition all_pages (db : Sql) (query : string) (n : nat)
  : list InvoicesTable.t :=
  flat_map
    (fun page =>
       match
         fst (fetchFilteredInvoices db query (inject_Z (Z.of_nat page)) fresh)
       with
       | inr rows => rows
       | inl _ => []
       end)
    (seq 1 n).

(** * Properties *)

(** ** Arithmetic of the platform primitives *)

Lemma Math_ceil_div (z : Z) (d : positive) :
  Math_ceil (inject_Z z / (Zpos d # 1))%Q = - ((- z) / Zpos d).
Proof.
  unfold Math_ceil, Qceiling, Qfloor, Qdiv, Qmult, Qinv, Qopp, inject_Z.
  simpl. rewrite Z.mul_1_r. reflexivity.
Qed.

Lemma ceil_thousand_spec (z : Z) :
  exists top, ceil_thousand (Int z) = Int top /\ rounded_up_to_thousand z top.
Proof.
  exists (- ((- z) / 1000) * 1000). split.
  - unfold ceil_thousand. now rewrite (Math_ceil_div z 1000).
  - split.
    + exists (- ((- z) / 1000)). reflexivity.
    + pose proof (Z.div_mod (- z) 1000 ltac:(lia)).
      pose proof (Z.mod_pos_bound (- z) 1000 ltac:(lia)). lia.
Qed.

(** ** [generatePagination] *)

Lemma Array_from_length_pages (n : Z) :
  Array_from_length n (fun i => PageNumber (i + 1))
  = map (fun k => PageNumber (Z.of_nat k)) (seq 1 (Z.to_nat n)).
Proof.
  unfold Array_from_length. rewrite <- seq_shift, map_map.
  apply map_ext. intro k. f_equal. lia.
Qed.

(** C3: [generatePagination] returns exactly the window the specification
    lists for its four cases (all pages when there are at most 7; the first
    three and last two around an ellipsis near the start; the first two and
    last three near the end; otherwise the current page with its neighbours
    between two ellipses), and [generatePagination(5, 10)] is
    [[1,'...',4,5,6,'...',10]]. *)
Theorem generatePagination_window :
  (forall currentPage totalPages l,
      PaginationWindow currentPage totalPages l
      <-> l = generatePagination currentPage totalPages)
  /\ generatePagination 5 10
     = [PageNumber 1; PageText "..."; PageNumber 4; PageNumber 5;
        PageNumber 6; PageText "..."; PageNumber 10].
Proof.
  split; [| reflexivity].
  intros c t l. unfold generatePagination.
  rewrite Array_from_length_pages. split.
  - intros W. destruct W;
      repeat match goal with
        | |- context [?a <=? ?b] => destruct (Z.leb_spec a b); try lia
        | |- context [?a >=? ?b] =>
            rewrite (Z.geb_leb a b); destruct (Z.leb_spec b a); try lia
        end; reflexivity.
  - intros ->.
    destruct (Z.leb_spec t 7); [now constructor |].
    destruct (Z.leb_spec c 3); [constructor; lia |].
    rewrite Z.geb_leb.
    destruct (Z.leb_spec (t - 2) c); [constructor; lia |].
    apply window_middle; lia.
Qed.

(** ** [generateYAxis] *)

Lemma fold_number_max (xs : list Z) (a : Z) :
  exists m, fold_left number_max xs (Int a) = Int m
            /\ is_maximum m (a :: xs).
Proof.
  revert a. induction xs as [| x xs IH]; intro a; simpl.
  - exists a. split; [reflexivity |]. split; [now left |].
    intros y [<- | []]. lia.
  - destruct (IH (Z.max a x)) as (m & E & Hin & Hub).
    exists m. split; [exact E |]. split.
    + destruct Hin as [<- | Hin]; [| now right; right].
      destruct (Z.max_spec a x) as [[_ ->] | [_ ->]]; [right |]; now left.
    + intros y Hy. assert (Z.max a x <= m) by (apply Hub; now left).
      destruct Hy as [<- | [<- | Hy]]; [lia | lia |].
      apply Hub. now right.
Qed.

Lemma Math_max_nonempty (xs : list Z) :
  xs <> [] -> exists m, Math_max xs = Int m /\ is_maximum m xs.
Proof.
  destruct xs as [| x xs]; [congruence | intros _].
  unfold Math_max. simpl.
  destruct (fold_number_max xs x) as (m & E & M). now exists m.
Qed.

Lemma yAxis_loop_negative (i : Z) : i < 0 -> yAxis_loop i = [].
Proof.
  intro H. simp yAxis_loop. destruct (Z_le_gt_dec 0 i); [lia | reflexivity].
Qed.

Lemma yAxis_loop_step (i : Z) :
  0 <= i -> yAxis_loop i = yAxis_label i :: yAxis_loop (i - 1000).
Proof.
  intro H. rewrite yAxis_loop_equation_1.
  destruct (Z_le_gt_dec 0 i); [reflexivity | lia].
Qed.

Lemma yAxis_loop_thousands (n : nat) :
  yAxis_loop (1000 * Z.of_nat n)
  = map (fun k => "$" ++ Number_toString (Z.of_nat k) ++ "K")
      (rev (seq 0 (S n))).
Proof.
  induction n as [| n IH].
  - rewrite yAxis_loop_step by lia.
    rewrite yAxis_loop_negative by lia. reflexivity.
  - rewrite yAxis_loop_step by lia.
    replace (1000 * Z.of_nat (S n) - 1000) with (1000 * Z.of_nat n) by lia.
    rewrite IH. rewrite (seq_S (S n)), rev_app_distr. cbn [rev app map].
    f_equal. unfold yAxis_label. do 3 f_equal.
    rewrite Z.mul_comm, Z.div_mul by lia. rewrite Nat.add_0_l. reflexivity.
Qed.

(** Started from a multiple of 1000, the loop renders multiples of 1000
    only, so the quotient [i / 1000] in a label is always an integer. *)
Lemma yAxis_loop_multiples (top : Z) :
  (1000 | top) ->
  exists steps,
    yAxis_loop top = map yAxis_label steps
    /\ Forall (fun i => (1000 | i) /\ 0 <= i <= top) steps.
Proof.
  intros [q ->]. destruct (Z_lt_le_dec q 0) as [Hq | Hq].
  - exists []. split; [apply yAxis_loop_negative; lia | constructor].
  - exists (map (fun k => 1000 * Z.of_nat k) (rev (seq 0 (S (Z.to_nat q))))).
    split.
    + replace (q * 1000) with (1000 * Z.of_nat (Z.to_nat q)) by lia.
      rewrite yAxis_loop_thousands, map_map. apply map_ext. intro k.
      unfold yAxis_label. now rewrite Z.mul_comm, Z.div_mul by lia.
    + apply Forall_forall. intros i Hi.
      apply in_map_iff in Hi. destruct Hi as (k & <- & Hk).
      apply in_rev, in_seq in Hk.
      split; [exists (Z.of_nat k); lia | lia].
Qed.

(** C9: on the empty revenue list the loop body never runs; the result is
    an empty label array together with [-Infinity] as [topLabel] (the
    rounded-up maximum of no values, which is no finite axis maximum), and
    nothing is thrown. *)
Theorem generateYAxis_empty :
  generateYAxis [] = {| yAxisLabels := []; topLabel := NegInfinity |}
  /\ forall top : Z, topLabel (generateYAxis []) <> Int top.
Proof.
  split; [reflexivity |]. intros top. discriminate.
Qed.

Lemma yAxis_labels_nonneg (m top : Z) :
  rounded_up_to_thousand m top -> -1000 < m ->
  descends_to_zero top (yAxis_loop top).
Proof.
  intros [[q ->] B] Hm. exists (Z.to_nat q).
  replace (q * 1000) with (1000 * Z.of_nat (Z.to_nat q)) by lia.
  split; [reflexivity | apply yAxis_loop_thousands].
Qed.

(** C6, as the code has it: for every non-empty list of revenue records
    [topLabel] is the maximum revenue rounded up to the nearest multiple of
    1000; when that maximum is above -1000 the labels run from [topLabel]
    down to 0 inclusive in steps of 1000, each rendered [$<value/1000>K],
    and when it is -1000 or less the loop never runs and the label list is
    empty.  Over revenues [1200, 4500, 2300] the result is [topLabel] 5000
    with labels [$5K .. $0K]. *)
Theorem generateYAxis_contract :
  (forall revenue_ : list Revenue,
      revenue_ <> [] ->
      exists m top,
        is_maximum m (map revenue revenue_)
        /\ rounded_up_to_thousand m top
        /\ topLabel (generateYAxis revenue_) = Int top
        /\ (-1000 < m ->
            descends_to_zero top (yAxisLabels (generateYAxis revenue_)))
        /\ (m <= -1000 -> yAxisLabels (generateYAxis revenue_) = []))
  /\ generateYAxis [revenue_of 1200; revenue_of 4500; revenue_of 2300]
     = {| yAxisLabels := ["$5K"; "$4K"; "$3K"; "$2K"; "$1K"; "$0K"];
          topLabel := Int 5000 |}.
Proof.
  split; [| reflexivity].
  intros rs Hne.
  destruct (Math_max_nonempty (map revenue rs)) as (m & Emax & Hmax).
  { destruct rs; [congruence | discriminate]. }
  destruct (ceil_thousand_spec m) as (top & Etop & Hround).
  exists m, top. unfold generateYAxis. rewrite Emax, Etop. cbn.
  repeat split; try apply Hmax; try apply Hround.
  - intro Hm. eapply yAxis_labels_nonneg; eassumption.
  - intro Hm. apply yAxis_loop_negative.
    destruct Hround as [[q ->] B]. lia.
Qed.

Lemma generateYAxis_contract_witness :
  [revenue_of 4500] <> []
  /\ exists m top,
      is_maximum m (map revenue [revenue_of 4500])
      /\ rounded_up_to_thousand m top
      /\ topLabel (generateYAxis [revenue_of 4500]) = Int top
      /\ (-1000 < m ->
          descends_to_zero top (yAxisLabels (generateYAxis [revenue_of 4500])))
      /\ (m <= -1000 -> yAxisLabels (generateYAxis [revenue_of 4500]) = []).
Proof.
  split; [discriminate |].
  apply (proj1 generateYAxis_contract [revenue_of 4500]). discriminate.
Defined.

(** The contract as the specification words it fails on a non-empty list
    whose revenues are all -1000 or less: [generateYAxis] of the single
    record -1500 has [topLabel] -1000 and no labels, so its labels do not
    run down to 0. *)
Lemma generateYAxis_negative_counterexample :
  [revenue_of (-1500)] <> []
  /\ generateYAxis [revenue_of (-1500)]
     = {| yAxisLabels := []; topLabel := Int (-1000) |}
  /\ ~ YAxis_contract [revenue_of (-1500)].
Proof.
  split; [discriminate |]. split; [reflexivity |].
  intros (m & top & _ & _ & _ & n & _ & Hl).
  change (yAxisLabels (generateYAxis [revenue_of (-1500)]))
    with (@nil string) in Hl.
  apply (f_equal (@List.length string)) in Hl.
  rewrite length_map, length_rev, length_seq in Hl. discriminate.
Qed.

(** ** Binary64 rounding *)

Lemma nearest_even_error (N D : Z) :
  0 < D -> 2 * Z.abs (D * Double.nearest_even N D - N) <= D.
Proof.
  intro HD. unfold Double.nearest_even.
  pose proof (Z.div_mod N D ltac:(lia)) as E.
  pose proof (Z.mod_pos_bound N D HD) as B.
  destruct (Z.compare_spec (2 * (N mod D)) D) as [C | C | C];
    [destruct (Z.even (N / D)) | |]; nia.
Qed.

Lemma nearest_even_exact (N : Z) : Double.nearest_even N 1 = N.
Proof.
  unfold Double.nearest_even. rewrite Z.mod_1_r, Z.div_1_r. reflexivity.
Qed.

Lemma binade_below (n d b : Z) :
  0 < n -> 0 < d -> 0 <= b -> n < d * 2 ^ b -> Double.binade n d < b.
Proof.
  intros Hn Hd Hb H. unfold Double.binade.
  pose proof (Z.log2_spec n Hn) as [Ln _].
  pose proof (Z.log2_spec d Hd) as [_ Ld].
  pose proof (Z.log2_nonneg n). pose proof (Z.log2_nonneg d).
  assert (Hl : Z.log2 n - Z.log2 d <= b).
  { assert (n < 2 ^ (Z.log2 d + 1 + b)).
    { rewrite Z.pow_add_r by lia.
      pose proof (Z.pow_pos_nonneg 2 b ltac:(lia) Hb). nia. }
    apply Z.log2_lt_pow2 in H2; lia. }
  destruct (Double.pow2_le _ n d) eqn:E; [| lia].
  destruct (Z.eq_dec (Z.log2 n - Z.log2 d) b) as [Eb | Nb]; [| lia].
  rewrite Eb in E. unfold Double.pow2_le in E.
  destruct (Z.leb_spec 0 b); [| lia].
  apply Z.leb_le in E. lia.
Qed.

Lemma round_opp (q : Q) : Double.round (- q) = (- Double.round q)%Q.
Proof.
  unfold Double.round. rewrite Qred_opp.
  destruct (Qred q) as [[| n | n] d]; cbn [Qnum Qden Qopp Z.opp].
  - reflexivity.
  - apply Qred_opp.
  - rewrite Qred_opp. destruct (Qred _) as [a b]. unfold Qopp. cbn [Qnum Qden].
    now rewrite Z.opp_involutive.
Qed.

Lemma Qred_integer (z : Z) : Qred (inject_Z z) = inject_Z z.
Proof.
  unfold Qred, inject_Z.
  pose proof (Z.ggcd_gcd z 1) as G.
  pose proof (Z.ggcd_correct_divisors z 1) as D.
  destruct (Z.ggcd z 1) as [g [a b]]. cbn [fst snd] in *.
  rewrite Z.gcd_1_r in G. subst g. destruct D as [Da Db].
  rewrite !Z.mul_1_l in *. now subst.
Qed.

Lemma round_positive_integer (n : Z) :
  0 < n < 2 ^ 53 -> (Double.round_positive n 1 == inject_Z n)%Q.
Proof.
  intros [Hn Hb]. unfold Double.round_positive.
  pose proof (binade_below n 1 53 Hn ltac:(lia) ltac:(lia) ltac:(lia)) as B.
  assert (L : 0 <= Double.binade n 1).
  { unfold Double.binade. cbn [Z.log2]. rewrite Z.sub_0_r.
    pose proof (Z.log2_spec n Hn) as [Ln _].
    pose proof (Z.log2_nonneg n).
    unfold Double.pow2_le. destruct (Z.leb_spec 0 (Z.log2 n)); [| lia].
    destruct (Z.leb_spec (1 * 2 ^ Z.log2 n) n); lia. }
  destruct (Z.leb_spec 0 (Double.binade n 1 - 52)) as [E | E].
  - replace (Double.binade n 1 - 52) with 0 by lia.
    change (2 ^ 0) with 1. change (1 * 1) with 1.
    now rewrite nearest_even_exact, Z.mul_1_r.
  - rewrite nearest_even_exact. unfold Qeq. cbn [Qnum Qden inject_Z].
    rewrite Z2Pos.id by (apply Z.pow_pos_nonneg; lia). lia.
Qed.

(** Integers below 2^53 in magnitude are doubles. *)
Lemma round_integer (z : Z) :
  Z.abs z < 2 ^ 53 -> Double.round (inject_Z z) = inject_Z z.
Proof.
  intro H. destruct z as [| p | p].
  - reflexivity.
  - unfold Double.round. rewrite Qred_integer. cbn [Qnum Qden inject_Z].
    rewrite <- (Qred_integer (Zpos p)). apply Qred_complete.
    apply round_positive_integer. lia.
  - change (inject_Z (Zneg p)) with (- inject_Z (Zpos p))%Q.
    rewrite round_opp. f_equal.
    unfold Double.round. rewrite Qred_integer. cbn [Qnum Qden inject_Z].
    rewrite <- (Qred_integer (Zpos p)). apply Qred_complete.
    apply round_positive_integer. lia.
Qed.

Lemma round_eq (q r : Q) : (q == r)%Q -> Double.round q = Double.round r.
Proof.
  intro H. unfold Double.round. now rewrite (Qred_complete _ _ H).
Qed.

(** The quotient of two positive integers, as a double: a significand [m]
    over a power of two, within half a unit of the last place of the exact
    quotient. *)
Lemma div_error (a c b : Z) :
  0 < a -> 0 < c -> 0 <= b <= 52 -> a < c * 2 ^ b ->
  exists m k,
    53 - b <= k
    /\ (Double.div (inject_Z a) (inject_Z c) == m # Z.to_pos (2 ^ k))%Q
    /\ 2 * Z.abs (m * c - a * 2 ^ k) <= c.
Proof.
  intros Ha Hc Hb Hlt. unfold Double.div, Double.round.
  destruct c as [| c | c]; try lia.
  pose proof (Qred_correct (inject_Z a / inject_Z (Zpos c))) as Er.
  destruct (Qred (inject_Z a / inject_Z (Zpos c))) as [n d].
  assert (En : n * Zpos c = a * Zpos d).
  { unfold Qeq in Er. cbn in Er. lia. }
  destruct n as [| n | n]; try nia. cbn [Qnum Qden].
  unfold Double.round_positive.
  assert (B : Double.binade (Zpos n) (Zpos d) < b).
  { apply binade_below; try lia.
    pose proof (Z.pow_pos_nonneg 2 b ltac:(lia) ltac:(lia)). nia. }
  destruct (Z.leb_spec 0 (Double.binade (Zpos n) (Zpos d) - 52)) as [E | E];
    [lia |].
  set (k := - (Double.binade (Zpos n) (Zpos d) - 52)) in *.
  set (m := Double.nearest_even (Zpos n * 2 ^ k) (Zpos d)).
  pose proof (nearest_even_error (Zpos n * 2 ^ k) (Zpos d) ltac:(lia)) as Hm.
  fold m in Hm.
  exists m, k. split; [lia |]. split; [apply Qred_correct |].
  assert (EX : Zpos d * (m * Zpos c - a * 2 ^ k)
               = Zpos c * (Zpos d * m - Zpos n * 2 ^ k)) by nia.
  assert (Zpos d * (2 * Z.abs (m * Zpos c - a * 2 ^ k)) <= Zpos d * Zpos c);
    [| nia].
  replace (Zpos d * (2 * Z.abs (m * Zpos c - a * 2 ^ k)))
    with (2 * Z.abs (Zpos d * (m * Zpos c - a * 2 ^ k)))
    by (rewrite Z.abs_mul; lia).
  rewrite EX, Z.abs_mul. nia.
Qed.

Lemma binade_low (n d : Z) :
  0 < d -> d <= n ->
  0 <= Double.binade n d /\ d * 2 ^ Double.binade n d <= n.
Proof.
  intros Hd Hn. unfold Double.binade.
  pose proof (Z.log2_spec n ltac:(lia)) as [Ln _].
  pose proof (Z.log2_spec d Hd) as [_ Ld].
  pose proof (Z.log2_nonneg d) as Nd.
  pose proof (Z.log2_le_mono d n Hn) as Hl.
  set (l := Z.log2 n - Z.log2 d) in *.
  unfold Double.pow2_le. destruct (Z.leb_spec 0 l) as [_ | C]; [| lia].
  destruct (Z.leb_spec (d * 2 ^ l) n) as [E | E]; [lia |].
  assert (l <> 0) by (intros ->; change (2 ^ 0) with 1 in E; lia).
  split; [lia |].
  assert (P : 2 ^ (Z.log2 d + 1) * 2 ^ (l - 1) = 2 ^ Z.log2 n).
  { rewrite <- Z.pow_add_r by lia. f_equal. unfold l. lia. }
  pose proof (Z.pow_pos_nonneg 2 (l - 1) ltac:(lia) ltac:(lia)). nia.
Qed.

Lemma binade_above (n d b : Z) :
  0 < d -> 0 <= b -> d * 2 ^ b <= n -> b <= Double.binade n d.
Proof.
  intros Hd Hb H. unfold Double.binade.
  pose proof (Z.pow_pos_nonneg 2 b ltac:(lia) Hb) as Pb.
  assert (Hn : 0 < n) by nia.
  pose proof (Z.log2_spec n Hn) as [_ Ln].
  pose proof (Z.log2_spec d Hd) as [Ld _].
  pose proof (Z.log2_nonneg d) as Nd.
  pose proof (Z.log2_nonneg n) as Nn.
  assert (Hl : b <= Z.log2 n - Z.log2 d).
  { assert (2 ^ (Z.log2 d + b) < 2 ^ (Z.log2 n + 1)).
    { rewrite Z.pow_add_r by lia. nia. }
    apply Z.pow_lt_mono_r_iff in H0; lia. }
  set (l := Z.log2 n - Z.log2 d) in *.
  unfold Double.pow2_le. destruct (Z.leb_spec 0 l) as [_ | C]; [| lia].
  destruct (Z.leb_spec (d * 2 ^ l) n) as [E | E]; [lia |].
  assert (b <> l) by (intros ->; lia). lia.
Qed.

Lemma nearest_even_ge_floor (N D : Z) : N / D <= Double.nearest_even N D.
Proof.
  unfold Double.nearest_even.
  destruct (2 * (N mod D) ?= D); [destruct (Z.even (N / D)) | |]; lia.
Qed.

(** Rounding does not take a number below a power of two it has
    reached. *)
Lemma round_positive_ge (n d b : Z) :
  0 < d -> 0 <= b -> d * 2 ^ b <= n ->
  (inject_Z (2 ^ b) <= Double.round_positive n d)%Q.
Proof.
  intros Hd Hb H.
  pose proof (Z.pow_pos_nonneg 2 b ltac:(lia) Hb) as Pb.
  pose proof (binade_above n d b Hd Hb H) as Ha.
  destruct (binade_low n d Hd ltac:(nia)) as [_ Hl].
  unfold Double.round_positive.
  set (beta := Double.binade n d) in *.
  assert (Pm : 2 ^ b <= 2 ^ beta) by (apply Z.pow_le_mono_r; lia).
  destruct (Z.leb_spec 0 (beta - 52)) as [E | E].
  - pose proof (Z.pow_pos_nonneg 2 (beta - 52) ltac:(lia) E) as Pe.
    assert (Ps : 2 ^ beta = 2 ^ 52 * 2 ^ (beta - 52)).
    { rewrite <- Z.pow_add_r by lia. f_equal. lia. }
    pose proof (nearest_even_ge_floor n (d * 2 ^ (beta - 52))) as G.
    assert (F : 2 ^ 52 <= n / (d * 2 ^ (beta - 52))).
    { apply Z.div_le_lower_bound; nia. }
    rewrite <- Zle_Qle. nia.
  - set (k := - (beta - 52)).
    pose proof (Z.pow_pos_nonneg 2 k ltac:(lia) ltac:(lia)) as Pk.
    assert (Ps : 2 ^ 52 = 2 ^ beta * 2 ^ k).
    { rewrite <- Z.pow_add_r by lia. f_equal. lia. }
    pose proof (nearest_even_ge_floor (n * 2 ^ k) d) as G.
    assert (F : 2 ^ 52 <= n * 2 ^ k / d).
    { apply Z.div_le_lower_bound; nia. }
    unfold Qle, inject_Z. cbn [Qnum Qden].
    rewrite Z2Pos.id by lia. nia.
Qed.

Lemma round_ge_pow2 (q : Q) (b : Z) :
  0 <= b -> (inject_Z (2 ^ b) <= q)%Q -> (inject_Z (2 ^ b) <= Double.round q)%Q.
Proof.
  intros Hb H. unfold Double.round.
  pose proof (Z.pow_pos_nonneg 2 b ltac:(lia) Hb) as Pb.
  rewrite <- (Qred_correct q) in H.
  destruct (Qred q) as [n d]. unfold Qle, inject_Z in H. cbn [Qnum Qden] in *.
  destruct n as [| n | n]; try (pose proof (Pos2Z.is_pos d); nia).
  rewrite Qred_correct. apply round_positive_ge; lia.
Qed.

Lemma div_opp (z : Z) (c : Q) :
  Double.div (inject_Z (- z)) c = (- Double.div (inject_Z z) c)%Q.
Proof.
  unfold Double.div. rewrite <- round_opp. apply round_eq.
  rewrite inject_Z_opp. unfold Qdiv. ring.
Qed.

(** Dividing a revenue value by 1000 in doubles does not change the
    ceiling of the quotient, so long as the value is itself a double. *)
Lemma thousand_quotient_positive (a : Z) :
  0 < a < 2 ^ 53 ->
  Qceiling (Double.div (inject_Z a) (1000 # 1)) = - (- a / 1000)
  /\ Qfloor (Double.div (inject_Z a) (1000 # 1)) = a / 1000.
Proof.
  intros [Ha Hb].
  destruct (div_error a 1000 44 Ha ltac:(lia) ltac:(lia) ltac:(lia))
    as (m & k & Hk & Ev & Hm).
  change (inject_Z 1000) with (1000 # 1) in Ev. rewrite Ev.
  assert (Hp : 512 <= 2 ^ k).
  { change 512 with (2 ^ 9). apply Z.pow_le_mono_r; lia. }
  unfold Qceiling, Qfloor, Qopp. cbn [Qnum Qden].
  rewrite Z2Pos.id by lia.
  set (P := 2 ^ k) in *.
  pose proof (Z.div_mod (- a) 1000 ltac:(lia)) as D.
  pose proof (Z.mod_pos_bound (- a) 1000 ltac:(lia)) as B.
  pose proof (Z.div_mod a 1000 ltac:(lia)) as D'.
  pose proof (Z.mod_pos_bound a 1000 ltac:(lia)) as B'.
  set (c := - a / 1000) in *. set (f := a / 1000) in *.
  split.
  - f_equal. symmetry.
    apply Z.div_unique with (r := - m - P * c); nia.
  - symmetry. apply Z.div_unique with (r := m - P * f); nia.
Qed.

Lemma ceil_thousand_double (z : Z) :
  Z.abs z < 2 ^ 53 ->
  Math_ceil (Double.div (inject_Z z) (1000 # 1))
  = Math_ceil (inject_Z z / (1000 # 1))%Q.
Proof.
  intro H. rewrite (Math_ceil_div z 1000). unfold Math_ceil.
  destruct (Z.lt_trichotomy z 0) as [C | [-> | C]].
  - remember (- z) as x eqn:Ex.
    assert (Ez : z = - x) by lia. clear Ex. subst z.
    rewrite div_opp. destruct (thousand_quotient_positive x ltac:(lia))
      as [_ F].
    unfold Qceiling. rewrite (Qfloor_comp _ _ (Qopp_involutive _)), F.
    reflexivity.
  - vm_compute. reflexivity.
  - now destruct (thousand_quotient_positive z ltac:(lia)).
Qed.

(** ** [formatCurrency] *)

(** Up to [exact_cents] the double nearest to [amount / 100] is within
    half a cent of it. *)
Lemma cents_error_positive (a : Z) :
  0 < a < exact_cents ->
  (Qabs (Double.div (inject_Z a) (100 # 1) * (100 # 1) - inject_Z a)
   < 1 # 2)%Q.
Proof.
  intros [Ha Hb]. unfold exact_cents in Hb.
  destruct (div_error a 100 46 Ha ltac:(lia) ltac:(lia) ltac:(lia))
    as (m & k & Hk & Ev & Hm).
  change (inject_Z 100) with (100 # 1) in Ev. rewrite Ev.
  assert (Hp : 128 <= 2 ^ k).
  { change 128 with (2 ^ 7). apply Z.pow_le_mono_r; lia. }
  unfold Qlt, Qabs, Qminus, Qplus, Qmult, Qopp, inject_Z. cbn [Qnum Qden].
  rewrite !Pos.mul_1_r, !Z.mul_1_r, !Z.mul_1_l.
  rewrite Z2Pos.id by lia. lia.
Qed.

(** It is positive and below [2^46]. *)
Lemma cents_double_range (a : Z) :
  0 < a < exact_cents ->
  0 < Qnum (Double.div (inject_Z a) (100 # 1))
  /\ (Double.div (inject_Z a) (100 # 1) < inject_Z (2 ^ 46))%Q.
Proof.
  intros [Ha Hb]. unfold exact_cents in Hb.
  destruct (div_error a 100 46 Ha ltac:(lia) ltac:(lia) ltac:(lia))
    as (m & k & Hk & Ev & Hm).
  change (inject_Z 100) with (100 # 1) in Ev.
  assert (Hp : 128 <= 2 ^ k).
  { change 128 with (2 ^ 7). apply Z.pow_le_mono_r; lia. }
  split.
  - unfold Qeq in Ev. cbn [Qnum Qden] in Ev.
    rewrite Z2Pos.id in Ev by lia.
    pose proof (Pos2Z.is_pos (Qden (Double.div (inject_Z a) (100 # 1)))).
    nia.
  - rewrite Ev. unfold Qlt, inject_Z. cbn [Qnum Qden].
    rewrite Z2Pos.id by lia. change (2 ^ 46) with 70368744177664. nia.
Qed.

(** No other number of cents has a quotient that rounds to the same
    double. *)
Lemma cents_read_back (a z : Z) :
  0 < a < exact_cents -> 0 <= z ->
  (Double.round (inject_Z z / (100 # 1))
   == Double.div (inject_Z a) (100 # 1))%Q ->
  z = a.
Proof.
  intros Ha Hz E.
  destruct (cents_double_range a Ha) as [Hpos Hlt].
  pose proof Ha as [Ha0 Hb]. unfold exact_cents in Hb.
  destruct (Z.eq_dec z 0) as [-> | Hz0].
  { exfalso. change (Double.round (inject_Z 0 / (100 # 1))) with 0%Q in E.
    unfold Qeq in E. cbn [Qnum Qden] in E. lia. }
  destruct (Z.lt_ge_cases z (100 * 2 ^ 46)) as [Hzb | Hzb].
  2: { exfalso.
       assert (G : (inject_Z (2 ^ 46) <= inject_Z z / (100 # 1))%Q).
       { unfold Qle, Qdiv, Qmult, Qinv, inject_Z. cbn [Qnum Qden].
         change (2 ^ 46) with 70368744177664 in *. lia. }
       apply (round_ge_pow2 _ 46 ltac:(lia)) in G.
       rewrite E in G. apply (Qlt_not_le _ _ Hlt G). }
  destruct (div_error a 100 46 Ha0 ltac:(lia) ltac:(lia) ltac:(lia))
    as (m & k & Hk & Ev & Hm).
  destruct (div_error z 100 46 ltac:(lia) ltac:(lia) ltac:(lia) Hzb)
    as (m' & k' & Hk' & Ev' & Hm').
  change (inject_Z 100) with (100 # 1) in Ev, Ev'.
  unfold Double.div in Ev'. rewrite Ev', Ev in E.
  assert (Hp : 128 <= 2 ^ k).
  { change 128 with (2 ^ 7). apply Z.pow_le_mono_r; lia. }
  assert (Hp' : 128 <= 2 ^ k').
  { change 128 with (2 ^ 7). apply Z.pow_le_mono_r; lia. }
  unfold Qeq in E. cbn [Qnum Qden] in E.
  rewrite !Z2Pos.id in E by lia.
  set (P := 2 ^ k) in *. set (P' := 2 ^ k') in *.
  assert (B1 : z * P' * P - 50 * P <= 100 * m' * P) by nia.
  assert (B2 : 100 * m' * P <= z * P' * P + 50 * P) by nia.
  assert (B3 : a * P * P' - 50 * P' <= 100 * m * P') by nia.
  assert (B4 : 100 * m * P' <= a * P * P' + 50 * P') by nia.
  assert (B5 : 100 * m' * P = 100 * m * P') by nia.
  assert (B6 : 64 * (P + P') <= P * P') by nia.
  assert (B7 : (z - a) * (P * P') <= 50 * (P + P')) by nia.
  assert (B8 : (a - z) * (P * P') <= 50 * (P + P')) by nia.
  clear B1 B2 B3 B4 B5 Hm Hm' E Ev Ev'.
  destruct (Z.lt_trichotomy z a) as [C | [C | C]]; [| exact C |]; exfalso.
  - assert (1 * (P * P') <= (a - z) * (P * P'))
      by (apply Z.mul_le_mono_nonneg_r; lia).
    lia.
  - assert (1 * (P * P') <= (z - a) * (P * P'))
      by (apply Z.mul_le_mono_nonneg_r; lia).
    lia.
Qed.

(** A multiple of a power of ten down to hundredths is a number of
    cents. *)
Lemma pow10_cents (n t : Z) :
  -2 <= t ->
  (inject_Z n * Double.pow10 t
   == inject_Z (n * 10 ^ (t + 2)) / (100 # 1))%Q.
Proof.
  intro Ht. unfold Double.pow10.
  destruct (Z.leb_spec 0 t) as [E | E].
  - rewrite Z.pow_add_r by lia. change (10 ^ 2) with 100.
    rewrite Z.mul_assoc, !inject_Z_mult.
    change (inject_Z 100) with (100 # 1). field.
  - assert (C : t = -1 \/ t = -2) by lia.
    destruct C as [-> | ->].
    + change (1 # Z.to_pos (10 ^ (- -1))) with (1 # 10).
      change (10 ^ (-1 + 2)) with 10.
      unfold Qdiv, Qinv. cbn [Qnum Qden].
      unfold Qeq, Qmult, inject_Z. cbn [Qnum Qden]. lia.
    + change (1 # Z.to_pos (10 ^ (- -2))) with (1 # 100).
      change (10 ^ (-2 + 2)) with 1.
      unfold Qdiv, Qinv. cbn [Qnum Qden].
      unfold Qeq, Qmult, inject_Z. cbn [Qnum Qden]. lia.
Qed.

(** So the shortest decimal that reads back as the double of the quotient
    is the quotient itself. *)
Lemma shortest_from_cents (a : Z) :
  0 < a < exact_cents ->
  forall (fuel : nat) (t : Z),
    -2 <= t -> (Z.to_nat (t + 3) <= fuel)%nat ->
    (Double.shortest_from fuel t (Double.div (inject_Z a) (100 # 1))
     == inject_Z a / (100 # 1))%Q.
Proof.
  intro Ha.
  set (v := Double.div (inject_Z a) (100 # 1)).
  destruct (cents_double_range a Ha) as [Hpos _]. fold v in Hpos.
  assert (Candidate : forall n t,
             -2 <= t -> 0 <= n ->
             Qeq_bool (Double.round (inject_Z n * Double.pow10 t)) v = true ->
             (inject_Z n * Double.pow10 t == inject_Z a / (100 # 1))%Q).
  { intros n t Ht Hn E. apply Qeq_bool_eq in E.
    rewrite (round_eq _ _ (pow10_cents n t Ht)) in E.
    assert (Pt : 0 < 10 ^ (t + 2)) by (apply Z.pow_pos_nonneg; lia).
    apply (cents_read_back a (n * 10 ^ (t + 2)) Ha) in E; [| nia].
    now rewrite pow10_cents, E by exact Ht. }
  assert (Floor : forall t, 0 <= Qfloor (v / Double.pow10 t)).
  { intro t. change 0 with (Qfloor 0). apply Qfloor_resp_le.
    assert (Pu : (0 < Double.pow10 t)%Q).
    { unfold Double.pow10. destruct (Z.leb_spec 0 t).
      - rewrite <- (Zlt_Qlt 0). apply Z.pow_pos_nonneg; lia.
      - reflexivity. }
    apply Qle_shift_div_l; [exact Pu |]. rewrite Qmult_0_l.
    destruct v as [vn vd]. unfold Qle. cbn [Qnum Qden] in *. lia. }
  induction fuel as [| fuel IH]; intros t Ht Hf; [lia |].
  cbn [Double.shortest_from]. cbv zeta.
  set (n := Qfloor (v / Double.pow10 t)).
  pose proof (Floor t) as Hn. fold n in Hn.
  destruct (Qeq_bool (Double.round (inject_Z n * Double.pow10 t)) v) eqn:Elo;
    destruct (Qeq_bool (Double.round (inject_Z (n + 1) * Double.pow10 t)) v)
      eqn:Ehi.
  - destruct (_ ?= _)%Q; [destruct (Z.even n) | |];
      apply Candidate; (assumption || lia).
  - apply Candidate; (assumption || lia).
  - apply Candidate; (assumption || lia).
  - destruct (Z.eq_dec t (-2)) as [-> | Ht2]; [| apply IH; lia].
    exfalso.
    pose proof (cents_error_positive a Ha) as Err. fold v in Err.
    assert (Near : n = a \/ n + 1 = a).
    { unfold n. change (Double.pow10 (-2)) with (1 # 100).
      destruct v as [vn vd].
      unfold Qlt, Qabs, Qminus, Qplus, Qmult, Qopp, inject_Z in Err.
      cbn [Qnum Qden] in Err.
      rewrite !Pos.mul_1_r, !Z.mul_1_r, !Z.mul_1_l in Err.
      unfold Qfloor, Qdiv, Qmult, Qinv. cbn [Qnum Qden].
      rewrite Pos.mul_1_r.
      pose proof (Pos2Z.is_pos vd) as Pd.
      pose proof (Z.div_mod (vn * 100) (Zpos vd) ltac:(lia)) as D.
      pose proof (Z.mod_pos_bound (vn * 100) (Zpos vd) Pd) as B.
      nia. }
    assert (Back : forall c,
               (c == inject_Z a / (100 # 1))%Q ->
               Qeq_bool (Double.round c) v = true).
    { intros c Ec. apply Qeq_bool_iff.
      rewrite (round_eq _ _ Ec). reflexivity. }
    destruct Near as [En | En].
    + rewrite Back in Elo; [discriminate |].
      rewrite pow10_cents, En by lia.
      change (10 ^ (-2 + 2)) with 1. now rewrite Z.mul_1_r.
    + rewrite Back in Ehi; [discriminate |].
      rewrite pow10_cents, En by lia.
      change (10 ^ (-2 + 2)) with 1. now rewrite Z.mul_1_r.
Qed.

(** Up to [exact_cents] the formatter sees the amount itself: the double
    has the sign of the amount, and the hundredths of its shortest decimal
    are the amount. *)
Lemma cents_quotient_positive (a : Z) :
  0 < a < exact_cents ->
  let v := Double.div (Double.of_integer a) (100 # 1) in
  Intl.round_half_expand (Double.shortest (Qabs v) * (100 # 1))%Q = a
  /\ 0 < Qnum v.
Proof.
  intro Ha. pose proof Ha as [Ha0 Hb]. unfold exact_cents in Hb.
  unfold Double.of_integer. rewrite round_integer by lia. cbv zeta.
  destruct (cents_double_range a Ha) as [Hpos _].
  split; [| exact Hpos].
  assert (Eabs : Qabs (Double.div (inject_Z a) (100 # 1))
                 = Double.div (inject_Z a) (100 # 1)).
  { destruct (Double.div (inject_Z a) (100 # 1)) as [vn vd].
    unfold Qabs. cbn [Qnum] in Hpos. now rewrite Z.abs_eq by lia. }
  rewrite Eabs. unfold Intl.round_half_expand, Double.shortest.
  rewrite shortest_from_cents; [| exact Ha | |].
  - assert (E : (inject_Z a / (100 # 1) * (100 # 1) + (1 # 2)
                 == inject_Z (2 * a + 1) / (2 # 1))%Q).
    { rewrite inject_Z_plus, inject_Z_mult. field. }
    rewrite E. unfold Qfloor, Qdiv, Qmult, Qinv, inject_Z. cbn [Qnum Qden].
    symmetry. apply Z.div_unique with (r := 1); lia.
  - pose proof (Z.log2_nonneg
                  (Qceiling (Double.div (inject_Z a) (100 # 1)))). lia.
  - pose proof (Z.log2_nonneg
                  (Qceiling (Double.div (inject_Z a) (100 # 1)))).
    pose proof (Z.log2_nonneg
                  (Zpos (Qden (Double.div (inject_Z a) (100 # 1))))).
    lia.
Qed.

Lemma cents_quotient (amount : Z) :
  Z.abs amount <= exact_cents ->
  let v := Double.div (Double.of_integer amount) (100 # 1) in
  Intl.round_half_expand (Double.shortest (Qabs v) * (100 # 1))%Q
  = Z.abs amount
  /\ (Qnum v <? 0) = (amount <? 0).
Proof.
  intro H. cbv zeta.
  assert (C : amount = 0 \/ amount = exact_cents \/ amount = - exact_cents
              \/ 0 < amount < exact_cents \/ 0 < - amount < exact_cents)
    by lia.
  destruct C as [-> | [-> | [-> | [C | C]]]].
  - split; vm_compute; reflexivity.
  - split; vm_compute; reflexivity.
  - split; vm_compute; reflexivity.
  - destruct (cents_quotient_positive amount C) as [E S].
    rewrite E. split; [lia |].
    destruct (Z.ltb_spec (Qnum (Double.div (Double.of_integer amount) (100 # 1))) 0);
      destruct (Z.ltb_spec amount 0); lia.
  - remember (- amount) as x eqn:Ex.
    assert (Ea : amount = - x) by lia. clear Ex. subst amount.
    destruct (cents_quotient_positive x C) as [E S].
    unfold exact_cents in C. unfold Double.of_integer in *.
    rewrite round_integer in E, S by lia. rewrite round_integer by lia.
    rewrite div_opp.
    assert (EA : forall q : Q, Qabs (- q) = Qabs q).
    { intros [n d]. unfold Qabs, Qopp. cbn [Qnum Qden].
      now rewrite Z.abs_opp. }
    rewrite EA, E. split; [lia |].
    cbn [Qnum Qopp].
    destruct (Z.ltb_spec (- Qnum (Double.div (inject_Z x) (100 # 1))) 0);
      destruct (Z.ltb_spec (- x) 0); lia.
Qed.

(** Up to [exact_cents] the string is the sign, [$], the grouped whole
    dollars, a point and the two cent digits. *)
Lemma formatCurrency_cents (amount : Z) :
  Z.abs amount <= exact_cents ->
  formatCurrency amount
  = (if amount <? 0 then "-" else "")
      ++ "$" ++ Intl.grouped (Z.abs amount / 100)
      ++ "." ++ Intl.fraction2 (Z.abs amount mod 100).
Proof.
  intro H. unfold formatCurrency, Intl.toLocaleString_en_US_USD.
  destruct (cents_quotient amount H) as [E S]. cbv zeta in E, S.
  now rewrite E, S.
Qed.

(** Induction following the recursion of [Intl.group_rev]: lists of at
    most three characters, then three characters and a separator at a
    time. *)
Lemma group_rev_ind (P : list ascii -> Prop) :
  (forall ds, (List.length ds <= 3)%nat -> P ds) ->
  (forall a b c d rest, P (d :: rest) -> P (a :: b :: c :: d :: rest)) ->
  forall ds, P ds.
Proof.
  intros Hsmall Hstep ds.
  remember (List.length ds) as n eqn:En. revert ds En.
  induction n as [n IH] using lt_wf_ind. intros ds En.
  destruct ds as [| a [| b [| c [| d rest]]]];
    try (apply Hsmall; cbn; lia).
  apply Hstep. apply (IH (List.length (d :: rest))); [subst n; cbn; lia |].
  reflexivity.
Qed.

Lemma group_rev_small (ds : list ascii) :
  (List.length ds <= 3)%nat -> Intl.group_rev ds = ds.
Proof.
  destruct ds as [| a [| b [| c [| d rest]]]]; cbn; try reflexivity; lia.
Qed.

Lemma group_rev_step (a b c d : ascii) (rest : list ascii) :
  Intl.group_rev (a :: b :: c :: d :: rest)
  = a :: b :: c :: ","%char :: Intl.group_rev (d :: rest).
Proof. reflexivity. Qed.

Lemma group_rev_nonempty (d : ascii) (rest : list ascii) :
  Intl.group_rev (d :: rest) <> [].
Proof.
  destruct rest as [| b [| c [| e rest]]]; discriminate.
Qed.

(** Grouping only inserts separators. *)
Lemma group_rev_digits (ds : list ascii) :
  filter (fun c => negb (is_comma c)) (Intl.group_rev ds)
  = filter (fun c => negb (is_comma c)) ds.
Proof.
  induction ds as [ds Hs | a b c d rest IH] using group_rev_ind.
  - now rewrite group_rev_small.
  - rewrite group_rev_step.
    change (a :: b :: c :: ","%char :: Intl.group_rev (d :: rest))
      with ([a; b; c] ++ ","%char :: Intl.group_rev (d :: rest))%list.
    change (a :: b :: c :: d :: rest) with ([a; b; c] ++ d :: rest)%list.
    rewrite !filter_app. f_equal.
    change (filter _ (","%char :: ?l)) with (filter (fun c => negb (is_comma c)) l).
    cbn [filter]. change (negb (is_comma ",")) with false. cbn iota.
    exact IH.
Qed.

(** It puts them at every fourth place and nowhere else. *)
Lemma group_rev_places (ds : list ascii) :
  Forall (fun c => is_comma c = false) ds ->
  forall (k : nat) (c : ascii),
    nth_error (Intl.group_rev ds) k = Some c ->
    (is_comma c = true <-> (k mod 4 = 3)%nat).
Proof.
  induction ds as [ds Hs | a b c d rest IH] using group_rev_ind;
    intros F k ch Hk.
  - rewrite group_rev_small in Hk by exact Hs.
    assert (Hlt : (k < List.length ds)%nat)
      by (apply nth_error_Some; congruence).
    apply nth_error_In in Hk.
    rewrite Forall_forall in F. rewrite (F ch Hk).
    assert (k = 0 \/ k = 1 \/ k = 2)%nat as [-> | [-> | ->]] by lia;
      cbn; split; discriminate.
  - rewrite group_rev_step in Hk.
    inversion F as [| ? ? Fa F1]; subst.
    inversion F1 as [| ? ? Fb F2]; subst.
    inversion F2 as [| ? ? Fc F3]; subst.
    destruct k as [| [| [| [| k]]]]; cbn in Hk.
    + injection Hk as <-. rewrite Fa. cbn. split; discriminate.
    + injection Hk as <-. rewrite Fb. cbn. split; discriminate.
    + injection Hk as <-. rewrite Fc. cbn. split; discriminate.
    + injection Hk as <-. cbn. split; reflexivity.
    + rewrite (IH F3 k ch Hk).
      replace (S (S (S (S k)))) with (k + 1 * 4)%nat by lia.
      now rewrite Nat.Div0.mod_add.
Qed.

(** The leading character of the grouped numeral is not a separator. *)
Lemma group_rev_leading (ds : list ascii) :
  Forall (fun c => is_comma c = false) ds ->
  hd_error (rev (Intl.group_rev ds)) <> Some ","%char.
Proof.
  induction ds as [ds Hs | a b c d rest IH] using group_rev_ind; intros F.
  - rewrite group_rev_small by exact Hs.
    destruct (rev ds) as [| x l] eqn:E; [discriminate |].
    cbn. intros [= ->].
    assert (Hin : In ","%char ds) by (apply in_rev; rewrite E; now left).
    rewrite Forall_forall in F. specialize (F _ Hin). discriminate.
  - rewrite group_rev_step.
    inversion F as [| ? ? _ F1]; subst.
    inversion F1 as [| ? ? _ F2]; subst.
    inversion F2 as [| ? ? _ F3]; subst.
    specialize (IH F3).
    change (a :: b :: c :: ","%char :: Intl.group_rev (d :: rest))
      with ([a; b; c; ","%char] ++ Intl.group_rev (d :: rest))%list.
    rewrite rev_app_distr.
    destruct (rev (Intl.group_rev (d :: rest))) as [| x l] eqn:E.
    + exfalso. apply (group_rev_nonempty d rest).
      rewrite <- (rev_involutive (Intl.group_rev (d :: rest))), E.
      reflexivity.
    + exact IH.
Qed.

Lemma decimal_digits_no_comma (u : Decimal.uint) :
  Forall (fun c => is_comma c = false)
    (list_ascii_of_string (NilEmpty.string_of_uint u)).
Proof.
  induction u; cbn; constructor; (reflexivity || assumption).
Qed.

Lemma numeral_no_comma (n : Z) :
  0 <= n ->
  Forall (fun c => is_comma c = false)
    (list_ascii_of_string (Number_toString n)).
Proof.
  intro Hn. unfold Number_toString.
  destruct n as [| p | p]; [| | lia]; apply decimal_digits_no_comma.
Qed.

Lemma grouped_spec (n : Z) : 0 <= n -> grouped_in_threes n (Intl.grouped n).
Proof.
  intro Hn. pose proof (numeral_no_comma n Hn) as F.
  unfold grouped_in_threes, Intl.grouped.
  rewrite list_ascii_of_string_of_list_ascii.
  set (ds := list_ascii_of_string (Number_toString n)) in *.
  assert (Frev : Forall (fun c => is_comma c = false) (rev ds)).
  { apply Forall_forall. intros c Hc. apply in_rev in Hc.
    rewrite Forall_forall in F. auto. }
  split; [| split].
  - assert (E : filter (fun c => negb (is_comma c))
                  (rev (Intl.group_rev (rev ds))) = ds).
    { rewrite <- (rev_involutive (filter _ _)), <- filter_rev,
        rev_involutive, group_rev_digits, filter_rev, rev_involutive.
      clear Frev. induction F as [| c l Hc _ IH]; [reflexivity |].
      cbn. rewrite Hc. cbn. now rewrite IH. }
    rewrite E. apply string_of_list_ascii_of_string.
  - rewrite rev_involutive. now apply group_rev_places.
  - now apply group_rev_leading.
Qed.

Lemma digit_numeral (d : Z) :
  0 <= d <= 9 -> Intl.digit d = Number_toString d.
Proof.
  intro H.
  assert (d = 0 \/ d = 1 \/ d = 2 \/ d = 3 \/ d = 4 \/ d = 5 \/ d = 6
          \/ d = 7 \/ d = 8 \/ d = 9) as C by lia.
  repeat (destruct C as [-> | C]; [reflexivity |]). now subst.
Qed.

Lemma chars_append (s t : string) :
  list_ascii_of_string (s ++ t)
  = (list_ascii_of_string s ++ list_ascii_of_string t)%list.
Proof.
  induction s as [| c s IH]; [reflexivity |]. cbn. now rewrite IH.
Qed.

(** C7, as stated, fails: [formatCurrency(7036874417766401)] is
    ["$70,368,744,177,664.02"], which shows two cents where the amount has
    one, because the double nearest to [70368744177664.01] is
    [70368744177664.015625]. *)
Theorem formatCurrency_rounds_large_amounts :
  formatCurrency 7036874417766401 = "$70,368,744,177,664.02"
  /\ ~ USD_string 7036874417766401 (formatCurrency 7036874417766401).
Proof.
  assert (E : formatCurrency 7036874417766401 = "$70,368,744,177,664.02")
    by (vm_compute; reflexivity).
  split; [exact E |]. rewrite E.
  intros (whole & d1 & d2 & Hs & _ & H1 & H2 & Hd).
  change (Z.abs 7036874417766401 mod 100) with 1 in Hd.
  assert (d1 = 0) by lia. assert (d2 = 1) by lia. subst d1 d2.
  change (7036874417766401 <? 0) with false in Hs. cbn iota in Hs.
  apply (f_equal (fun s => rev (list_ascii_of_string s))) in Hs.
  cbv beta in Hs.
  change ("" ++ "$" ++ whole ++ "." ++ Number_toString 0 ++ Number_toString 1)
    with (String "$" (whole ++ ".01")) in Hs.
  cbn [list_ascii_of_string] in Hs. rewrite chars_append in Hs.
  cbn [rev] in Hs. rewrite rev_app_distr in Hs.
  vm_compute in Hs. discriminate Hs.
Qed.

(** C7, amended: [formatCurrency] is a total function of the integer
    amount; for every amount of at most [exact_cents] = 7036874417766400
    cents in magnitude its value is the en-US US-dollar rendering of
    [amount / 100] (sign, [$], whole dollars grouped in threes, point, two
    cent digits), and [formatCurrency(125000)] is ["$1,250.00"]. *)
Theorem formatCurrency_usd :
  (forall amount : Z,
      Z.abs amount <= exact_cents ->
      USD_string amount (formatCurrency amount))
  /\ formatCurrency 125000 = "$1,250.00".
Proof.
  split; [| vm_compute; reflexivity].
  intros amount Hb. rewrite formatCurrency_cents by exact Hb.
  pose proof (Z.mod_pos_bound (Z.abs amount) 100 ltac:(lia)) as Hc.
  set (cents := Z.abs amount mod 100) in *.
  exists (Intl.grouped (Z.abs amount / 100)), (cents / 10), (cents mod 10).
  pose proof (Z.div_mod cents 10 ltac:(lia)).
  pose proof (Z.mod_pos_bound cents 10 ltac:(lia)).
  assert (0 <= cents / 10 <= 9) by lia.
  split; [| split; [| repeat split; lia]].
  - unfold Intl.fraction2. now rewrite !digit_numeral by lia.
  - apply grouped_spec. apply Z.div_pos; lia.
Qed.

Lemma formatCurrency_usd_witness :
  Z.abs (-1999) <= exact_cents
  /\ USD_string (-1999) (formatCurrency (-1999)).
Proof.
  assert (H : Z.abs (-1999) <= exact_cents) by (vm_compute; discriminate).
  split; [exact H | exact (proj1 formatCurrency_usd (-1999) H)].
Defined.

(** ** Error translation *)

(** A rejected [await sql`...`] inside [try] runs the [catch] block: the
    cause goes to the console and a fresh [Error] is thrown. *)
Lemma rejected_statement_is_caught {A} (db : Sql) (q : Query)
    (k : list (row_of q) -> Async A) (msg : string) (w : World)
    (cause : PostgresError) :
  db q = inl cause ->
  try_catch
    (rows <- await_sql db q ;; k rows)
    (fun error =>
       console_error "Database Error:" error ;;; throw (Error msg)) w
  = (inl (Error msg),
     {| issued := issued w ++ [q];
        console := console w ++ [("Database Error:", DatabaseError cause)] |}).
Proof.
  intro H. unfold try_catch, bind, await_sql, sql, await, console_error, throw.
  rewrite H. reflexivity.
Qed.

(** A resolved one runs the rest of the [try] block. *)
Lemma resolved_statement_continues {A} (db : Sql) (q : Query)
    (k : list (row_of q) -> Async A) (w : World) (rows : list (row_of q)) :
  db q = inr rows ->
  (rows <- await_sql db q ;; k rows) w
  = k rows {| issued := issued w ++ [q]; console := console w |}.
Proof.
  intro H. unfold bind, await_sql, sql, await. rewrite H. reflexivity.
Qed.

(** [fetchCardData] when some statement is rejected: the three statements
    have been issued, one of the rejection causes is logged, and the
    generic error is thrown. *)
Lemma fetchCardData_rejected (db : Sql) (race : nat) (w : World) :
  (exists q cause,
      In q [CountInvoices; CountCustomers; SumInvoiceStatus]
      /\ db q = inl cause) ->
  exists q cause,
    In q [CountInvoices; CountCustomers; SumInvoiceStatus]
    /\ db q = inl cause
    /\ fetchCardData db race w
       = (inl (Error "Failed to fetch card data."),
          {| issued :=
               issued w ++ [CountInvoices; CountCustomers; SumInvoiceStatus];
             console :=
               console w ++ [("Database Error:", DatabaseError cause)] |}).
Proof.
  intros (q & cause & Hq & Hdb).
  unfold fetchCardData, try_catch, bind, sql, await, console_error, throw.
  cbn [issued console].
  repeat rewrite <- app_assoc. cbn [app].
  destruct (db CountInvoices) as [e0 | r0] eqn:E0;
    destruct (db CountCustomers) as [e1 | r1] eqn:E1;
    destruct (db SumInvoiceStatus) as [e2 | r2] eqn:E2;
    try (exfalso; destruct Hq as [<- | [<- | [<- | []]]]; congruence);
    cbn [Promise_all3 reasons rejection flat_map app List.length].
  all: match goal with
       | |- context [nth ?i ?l ?d] =>
           assert (Hn : (i < List.length l)%nat)
             by (apply Nat.mod_upper_bound; discriminate);
           cbn [List.length] in Hn;
           destruct i as [| [| [| ?]]]; cbn [nth]; try lia
       end.
  all: first [ exists CountInvoices; eexists; split; [now left |];
               split; [eassumption | reflexivity]
             | exists CountCustomers; eexists; split; [now right; left |];
               split; [eassumption | reflexivity]
             | exists SumInvoiceStatus; eexists;
               split; [now right; right; left |];
               split; [eassumption | reflexivity] ].
Qed.

(** C4: whenever a database call a query function makes is rejected, with
    any error, the function throws [Error] with its own fixed message and
    not the database's error, which is only written to the console; for
    [fetchCardData] this holds when any one of its three statements is
    rejected, whatever the other two do and whichever settles first, so no
    partial result is returned. *)
Theorem database_failure_is_translated
    (db : Sql) (race : nat) (f : QueryFunction) (w : World)
    (q : Query) (cause : PostgresError) :
  In q (database_calls f) ->
  db q = inl cause ->
  fst (run db race f w) = Some (Error (failure_message f))
  /\ fst (run db race f w) <> Some (DatabaseError cause)
  /\ exists q' logged,
      In q' (database_calls f) /\ db q' = inl logged
      /\ console (snd (run db race f w))
         = (console w ++ [("Database Error:", DatabaseError logged)])%list.
Proof.
  intros Hq Hdb.
  assert (G : fst (run db race f w) = Some (Error (failure_message f))
              /\ exists q' logged,
                  In q' (database_calls f) /\ db q' = inl logged
                  /\ console (snd (run db race f w))
                     = (console w
                          ++ [("Database Error:", DatabaseError logged)])%list).
  { destruct f; cbn [database_calls] in Hq |- *.
    3: { destruct (fetchCardData_rejected db race w) as (q' & c' & I & D & E);
         [now exists q, cause |].
         unfold run, thrown. rewrite E. split; [reflexivity |].
         now exists q', c'. }
    all: destruct Hq as [<- | []]; unfold run, thrown.
    all: unfold fetchRevenue, fetchLatestInvoices, fetchFilteredInvoices,
      fetchInvoicesPages, fetchInvoiceById, fetchCustomers,
      fetchFilteredCustomers.
    all: erewrite rejected_statement_is_caught by exact Hdb.
    all: split; [reflexivity |]; eexists _, cause;
      split; [now left |]; split; [exact Hdb | reflexivity]. }
  destruct G as (G1 & G2).
  split; [exact G1 |]. split; [rewrite G1; discriminate | exact G2].
Qed.

Lemma database_failure_is_translated_witness :
  In SumInvoiceStatus (database_calls FetchCardData)
  /\ Sample.sums_rejected SumInvoiceStatus = inl Sample.timeout
  /\ fst (run Sample.sums_rejected 0 FetchCardData fresh)
     = Some (Error "Failed to fetch card data.").
Proof.
  split; [right; right; left; reflexivity |]. split; [reflexivity |].
  apply (database_failure_is_translated Sample.sums_rejected 0 FetchCardData
           fresh SumInvoiceStatus Sample.timeout).
  - right; right; left; reflexivity.
  - reflexivity.
Defined.

(** ** Point lookup *)




(** ** The offset handed to the database *)

(** The page arithmetic is exact on integers while the product stays below
    [2^53]. *)
Lemma page_offset (page : Z) :
  Z.abs ((page - 1) * 6) < 2 ^ 53 ->
  Double.mul (Double.sub (inject_Z page) 1) (inject_Z ITEMS_PER_PAGE)
  = inject_Z ((page - 1) * 6).
Proof.
  intro H. unfold Double.mul, Double.sub.
  rewrite (round_eq (inject_Z page - 1) (inject_Z (page - 1))).
  2: { unfold Z.sub. rewrite inject_Z_plus. reflexivity. }
  rewrite round_integer by lia.
  rewrite (round_eq (inject_Z (page - 1) * inject_Z ITEMS_PER_PAGE)
             (inject_Z ((page - 1) * 6))).
  2: { rewrite inject_Z_mult. reflexivity. }
  now apply round_integer.
Qed.

(** An integer below [2^53] in magnitude is sent as its own numeral. *)
Lemma bigint_text_integer (z : Z) :
  Z.abs z < 2 ^ 53 -> Double.bigint_text (inject_Z z) = Some z.
Proof.
  intro H. unfold Double.bigint_text.
  assert (F : Qfloor (inject_Z z) = z).
  { unfold Qfloor, inject_Z. apply Z.div_1_r. }
  rewrite F.
  rewrite (proj2 (Qeq_bool_iff _ _) (Qeq_refl (inject_Z z))). cbn [negb].
  destruct (Z.leb_spec (10 ^ 21) (Z.abs z)) as [B | _];
    [change (10 ^ 21) with 1000000000000000000000 in B; lia |].
  destruct (Z.leb_spec (Z.abs z) (2 ^ 53)); [reflexivity | lia].
Qed.

(** [LIMIT 6 OFFSET m] for an integer [m] below [2^53]. *)
Lemma limit_offset_integer {A} (m : Z) (rows : list A) :
  Z.abs m < 2 ^ 53 ->
  Pg.limit_offset 6 (inject_Z m) rows
  = if m <? 0 then
      inl {| code := "2201X"; message := "OFFSET must not be negative" |}
    else inr (firstn 6 (skipn (Z.to_nat m) rows)).
Proof.
  intro H. unfold Pg.limit_offset. rewrite bigint_text_integer by exact H.
  destruct (Z.ltb_spec m (- 2 ^ 63)); [lia |].
  destruct (Z.leb_spec (2 ^ 63) m); [lia |]. reflexivity.
Qed.





(** ** [ORDER BY] and windows *)

Section OrderByFacts.
Context {A : Type} (leb : A -> A -> bool).
Hypothesis leb_total : forall a b, leb a b = true \/ leb b a = true.
Hypothesis leb_trans :
  forall a b c, leb a b = true -> leb b c = true -> leb a c = true.

Let le (a b : A) : Prop := leb a b = true.

Lemma insert_permutation (x : A) (l : list A) :
  Permutation (Pg.insert leb x l) (x :: l).
Proof.
  induction l as [| y l IH]; cbn; [reflexivity |].
  destruct (leb x y); [reflexivity |].
  rewrite IH. apply perm_swap.
Qed.

Lemma order_by_permutation (l : list A) :
  Permutation (Pg.order_by leb l) l.
Proof.
  induction l as [| x l IH]; cbn; [constructor |].
  rewrite insert_permutation. now constructor.
Qed.

Lemma insert_sorted (x : A) (l : list A) :
  StronglySorted le l -> StronglySorted le (Pg.insert leb x l).
Proof.
  induction 1 as [| y l S IH F]; cbn.
  - repeat constructor.
  - destruct (leb x y) eqn:E.
    + constructor; [now constructor |].
      constructor; [exact E |].
      eapply Forall_impl; [| exact F]. intros z Hz.
      unfold le in *. eauto.
    + constructor; [exact IH |].
      eapply Permutation_Forall;
        [symmetry; apply insert_permutation |].
      constructor; [| exact F].
      destruct (leb_total x y); [congruence | assumption].
Qed.

Lemma order_by_sorted (l : list A) :
  StronglySorted le (Pg.order_by leb l).
Proof.
  induction l as [| x l IH]; cbn; [constructor |].
  now apply insert_sorted.
Qed.
End OrderByFacts.

Lemma StronglySorted_skipn {A} (R : A -> A -> Prop) (n : nat) (l : list A) :
  StronglySorted R l -> StronglySorted R (skipn n l).
Proof.
  revert l. induction n as [| n IH]; intros l S; [exact S |].
  destruct S; cbn; [constructor | now apply IH].
Qed.

Lemma firstn_Forall {A} (P : A -> Prop) (n : nat) (l : list A) :
  Forall P l -> Forall P (firstn n l).
Proof.
  revert l. induction n as [| n IH]; intros l F; [constructor |].
  destruct F; cbn; constructor; auto.
Qed.

Lemma StronglySorted_firstn {A} (R : A -> A -> Prop) (n : nat) (l : list A) :
  StronglySorted R l -> StronglySorted R (firstn n l).
Proof.
  revert l. induction n as [| n IH]; intros l S; [constructor |].
  destruct S as [| x l S F]; cbn; constructor;
    [now apply IH | now apply firstn_Forall].
Qed.

Lemma StronglySorted_map {A B} (f : A -> B) (R : B -> B -> Prop)
    (l : list A) :
  StronglySorted (fun a b => R (f a) (f b)) l -> StronglySorted R (map f l).
Proof.
  induction 1 as [| x l S IH F]; cbn; constructor; [exact IH |].
  now apply Forall_map.
Qed.

Lemma Date_leb_total (a b : Date.t) :
  Date.leb a b = true \/ Date.leb b a = true.
Proof.
  unfold Date.leb.
  rewrite !orb_true_iff, !andb_true_iff, !orb_true_iff, !andb_true_iff,
    !Z.ltb_lt, !Z.eqb_eq, !Z.leb_le.
  lia.
Qed.

Lemma Date_leb_trans (a b c : Date.t) :
  Date.leb a b = true -> Date.leb b c = true -> Date.leb a c = true.
Proof.
  unfold Date.leb.
  rewrite !orb_true_iff, !andb_true_iff, !orb_true_iff, !andb_true_iff,
    !Z.ltb_lt, !Z.eqb_eq, !Z.leb_le.
  lia.
Qed.

Lemma invoices_table_row_date (r : invoices.row * customers.row) :
  InvoicesTable.date (Pg.invoices_table_row r) = invoices.date (fst r).
Proof. now destruct r. Qed.


(** ** The [C] locale is an engine *)

Lemma ascii_compare_refl (a : ascii) : Ascii.compare a a = Eq.
Proof. unfold Ascii.compare. apply N.compare_refl. Qed.

Lemma ascii_compare_lt_trans (a b c : ascii) :
  Ascii.compare a b = Lt -> Ascii.compare b c = Lt -> Ascii.compare a c = Lt.
Proof.
  unfold Ascii.compare. rewrite !N.compare_lt_iff. apply N.lt_trans.
Qed.

Lemma string_leb_trans (a b c : string) :
  String.leb a b = true -> String.leb b c = true -> String.leb a c = true.
Proof.
  unfold String.leb. revert b c.
  induction a as [| x a IH]; intros [| y b] [| z c]; cbn;
    try reflexivity; try discriminate.
  destruct (Ascii.compare x y) eqn:Exy; try discriminate;
    destruct (Ascii.compare y z) eqn:Eyz; try discriminate.
  - apply Ascii.compare_eq_iff in Exy, Eyz. subst.
    rewrite ascii_compare_refl. apply IH.
  - apply Ascii.compare_eq_iff in Exy. subst. now rewrite Eyz.
  - apply Ascii.compare_eq_iff in Eyz. subst. now rewrite Exy.
  - now rewrite (ascii_compare_lt_trans _ _ _ Exy Eyz).
Qed.

Lemma C_locale_lawful : Lawful Pg.C_locale.
Proof.
  constructor; cbn [characters name_le tie_order Pg.C_locale].
  - reflexivity.
  - apply String.leb_total.
  - apply string_leb_trans.
  - intro query. rewrite !chars_append, !map_app. reflexivity.
  - intros s t E.
    rewrite <- (map_map Pg.lower N_of_ascii (list_ascii_of_string s)),
      <- (map_map Pg.lower N_of_ascii (list_ascii_of_string t)).
    now rewrite E.
  - reflexivity.
Qed.

(** ** The search filter *)

Lemma like_percent (p s : list N) :
  Pg.like (Pg.percent :: p) s
  = Pg.like p s
    || match s with
       | [] => false
       | _ :: s' => Pg.like (Pg.percent :: p) s'
       end.
Proof. destruct s; reflexivity. Qed.

(** A leading [%] lets the rest of the pattern start anywhere. *)
Lemma like_any_run (p s : list N) :
  Pg.like (Pg.percent :: p) s = true
  <-> exists pre rest, s = (pre ++ rest)%list /\ Pg.like p rest = true.
Proof.
  induction s as [| x s IH]; rewrite like_percent, orb_true_iff.
  - split.
    + intros [H | H]; [| discriminate]. now exists [], [].
    + intros (pre & rest & E & H). left.
      symmetry in E. apply app_eq_nil in E. destruct E as [_ ->]. exact H.
  - rewrite IH. split.
    + intros [H | (pre & rest & -> & H)].
      * now exists [], (x :: s).
      * now exists (x :: pre), rest.
    + intros ([| y pre] & rest & E & H); cbn in E.
      * left. now subst rest.
      * right. injection E as -> ->. now exists pre, rest.
Qed.

(** Literal characters must be matched one for one. *)
Lemma like_literal (q p s : list N) :
  Forall (fun c => literal c = true) q ->
  (Pg.like (q ++ p) s = true
   <-> exists rest, s = (q ++ rest)%list /\ Pg.like p rest = true).
Proof.
  intro F. revert s. induction F as [| c q Hc _ IH]; intro s.
  - cbn. split; [intro H; now exists s | now intros (rest & -> & H)].
  - unfold literal in Hc. apply negb_true_iff in Hc.
    apply orb_false_iff in Hc. destruct Hc as [Hc H3].
    apply orb_false_iff in Hc. destruct Hc as [H1 H2].
    cbn [app Pg.like]. rewrite H1, H2, H3.
    destruct s as [| x s].
    + split; [discriminate | now intros (rest & [=] & _)].
    + rewrite andb_true_iff, IH. split.
      * intros [E (rest & -> & H)]. apply N.eqb_eq in E. subst x.
        now exists rest.
      * intros (rest & [= -> ->] & H). split; [apply N.eqb_refl |].
        now exists rest.
Qed.

Lemma like_trailing_percent (s : list N) : Pg.like [Pg.percent] s = true.
Proof.
  induction s as [| x s IH]; rewrite like_percent; [reflexivity |].
  rewrite IH. apply orb_true_r.
Qed.

(** The pattern [%query%] is a text exactly when the query is. *)
Lemma valid_text_pattern (query : string) :
  Pg.valid_text ("%" ++ query ++ "%") = Pg.valid_text query.
Proof.
  unfold Pg.valid_text. rewrite !chars_append, !forallb_app.
  cbn. now rewrite andb_true_r.
Qed.

Lemma starts_with_spec (q s : list N) :
  starts_with q s = true <-> exists post, s = (q ++ post)%list.
Proof.
  revert s. induction q as [| c q IH]; intros [| x s]; cbn.
  - split; [now exists [] | reflexivity].
  - split; [now exists (x :: s) | reflexivity].
  - split; [discriminate | now intros (post & [=])].
  - rewrite andb_true_iff, IH, N.eqb_eq. split.
    + intros [-> (post & ->)]. now exists post.
    + intros (post & [= -> ->]). split; [reflexivity | now exists post].
Qed.

Lemma occurs_spec (q s : list N) : occurs q s = true <-> occurs_in q s.
Proof.
  unfold occurs_in. induction s as [| x s IH]; cbn [occurs];
    rewrite orb_true_iff, starts_with_spec.
  - split.
    + intros [(post & E) | H]; [| discriminate]. now exists [], post.
    + intros ([| y pre] & post & E); [left; now exists post |].
      discriminate E.
  - rewrite IH. split.
    + intros [(post & E) | (pre & post & ->)].
      * now exists [], post.
      * now exists (x :: pre), post.
    + intros ([| y pre] & post & E); cbn in E.
      * left. now exists post.
      * right. injection E as -> ->. now exists pre, post.
Qed.

(** The filter is a case-insensitive substring test whenever the query,
    once folded, has no [%], [_] or backslash: the column matches
    [%query%] exactly when the characters of the query occur in those of
    the column.  (On other queries those characters act as wildcards and
    escapes; see the example that follows.) *)
Lemma ilike_substring (e : Engine) (column query : string) :
  Lawful e ->
  Pg.valid_text query = true ->
  Forall (fun c => literal c = true) (characters e query) ->
  (Pg.ilike e column ("%" ++ query ++ "%") = true
   <-> occurs_in (characters e query) (characters e column)).
Proof.
  intros L V F. unfold Pg.ilike, occurs_in.
  rewrite valid_text_pattern, V, (characters_pattern e L). cbn [andb].
  rewrite like_any_run. split.
  - intros (pre & rest & E & H).
    apply (like_literal _ _ _ F) in H. destruct H as (post & -> & _).
    now exists pre, post.
  - intros (pre & post & E). exists pre. eexists. split; [exact E |].
    apply (like_literal _ _ _ F). exists post.
    split; [reflexivity | apply like_trailing_percent].
Qed.

Lemma ilike_occurs (e : Engine) (column query : string) :
  Lawful e ->
  Pg.valid_text query = true ->
  Forall (fun c => literal c = true) (characters e query) ->
  Pg.ilike e column ("%" ++ query ++ "%")
  = occurs (characters e query) (characters e column).
Proof.
  intros L V F. apply eq_true_iff_eq.
  rewrite occurs_spec. now apply ilike_substring.
Qed.

Example ilike_wildcard :
  Pg.ilike Pg.C_locale "pending" "%P_ND%" = true
  /\ Pg.ilike Pg.C_locale "pending" "%nding\%" = false.
Proof. split; reflexivity. Qed.

(** ** The invoice search *)

Lemma filter_pairs {A B} (g : A * B -> bool) (a : A) (l : list B) :
  filter g (map (pair a) l) = map (pair a) (filter (fun b => g (a, b)) l).
Proof.
  induction l as [| b l IH]; [reflexivity |]. cbn.
  destruct (g (a, b)); cbn; now rewrite IH.
Qed.

(** The inner join is the matching part of the product of the tables. *)
Lemma join_is_filtered_product (d : Database) :
  Pg.invoices_join_customers d = invoices_with_customers d.
Proof.
  unfold Pg.invoices_join_customers, invoices_with_customers.
  induction (invoices_table d) as [| i l IH]; [reflexivity |].
  cbn [flat_map list_prod]. rewrite filter_app, IH. f_equal.
  now rewrite filter_pairs.
Qed.

Lemma invoice_matches_columns (e : Engine) (pattern : string)
    (r : invoices.row * customers.row) :
  Pg.invoice_matches e pattern r
  = existsb (fun column => Pg.ilike e column pattern) (searched_columns r).
Proof.
  destruct r as [i c]. cbn. now rewrite orb_false_r, !orb_assoc.
Qed.

Lemma invoices_table_row_listed (r : invoices.row * customers.row) :
  Pg.invoices_table_row r = listed_invoice r.
Proof. now destruct r. Qed.

(** The rows of the statement's [WHERE] clause are the searched rows. *)
Lemma matching_invoices_searched (e : Engine) (d : Database)
    (query : string) :
  map Pg.invoices_table_row
    (Pg.matching_invoices e d ("%" ++ query ++ "%"))
  = searched_rows e d query.
Proof.
  unfold Pg.matching_invoices, searched_rows.
  rewrite join_is_filtered_product.
  rewrite (filter_ext _ _ (invoice_matches_columns e ("%" ++ query ++ "%"))).
  apply map_ext, invoices_table_row_listed.
Qed.

(** Without wildcards in the query the searched rows are those that
    contain it. *)
Lemma searched_rows_substring (e : Engine) (d : Database) (query : string) :
  Lawful e ->
  Pg.valid_text query = true ->
  Forall (fun c => literal c = true) (characters e query) ->
  searched_rows e d query = substring_rows e d query.
Proof.
  intros L V F. unfold searched_rows, substring_rows. f_equal.
  apply filter_ext. intro r. induction (searched_columns r) as [| c l IH];
    [reflexivity |].
  cbn [existsb]. now rewrite IH, ilike_occurs.
Qed.

Lemma date_desc_sorted (l : list (invoices.row * customers.row)) :
  StronglySorted (fun a b => Pg.date_desc a b = true)
    (Pg.order_by Pg.date_desc l).
Proof.
  apply (order_by_sorted Pg.date_desc).
  - intros a b. unfold Pg.date_desc. apply Date_leb_total.
  - intros a b c. unfold Pg.date_desc. intros H1 H2.
    eapply Date_leb_trans; eassumption.
Qed.

Lemma newest_first_rows (l : list (invoices.row * customers.row)) :
  StronglySorted (fun a b => Pg.date_desc a b = true) l ->
  newest_first (map Pg.invoices_table_row l).
Proof.
  intro S. unfold newest_first. apply StronglySorted_map.
  induction S as [| a l _ IH F]; constructor; [exact IH |].
  eapply Forall_impl; [| exact F]. intros b Hb.
  rewrite !invoices_table_row_date. exact Hb.
Qed.

(** The rows of a search in the order the statement for one window puts
    them. *)
Lemma search_order (e : Engine) (d : Database) (query : string)
    (window : nullable (Z * Q)) :
  Lawful e ->
  let ordered :=
    map Pg.invoices_table_row
      (Pg.order_by Pg.date_desc
         (tie_order e _ window
            (Pg.matching_invoices e d ("%" ++ query ++ "%")))) in
  Permutation ordered (searched_rows e d query) /\ newest_first ordered.
Proof.
  intros L ordered. split.
  - unfold ordered. rewrite <- matching_invoices_searched.
    apply Permutation_map.
    rewrite order_by_permutation. apply (tie_order_permutation e L).
  - apply newest_first_rows, date_desc_sorted.
Qed.

(** A search for an integer page from 1 up succeeds with the page's window
    of the rows the statement ordered. *)
Lemma fetchFilteredInvoices_window
    (e : Engine) (d : Database) (query : string) (page : Z) (w : World) :
  Pg.valid_text query = true ->
  1 <= page -> (page - 1) * 6 < 2 ^ 53 ->
  fst (fetchFilteredInvoices (Pg.execute e d) query (inject_Z page) w)
  = inr (page_window page
           (map Pg.invoices_table_row
              (Pg.order_by Pg.date_desc
                 (tie_order e _ (Some (6, inject_Z ((page - 1) * 6)))
                    (Pg.matching_invoices e d ("%" ++ query ++ "%")))))).
Proof.
  intros V Hp Hb. unfold fetchFilteredInvoices, try_catch.
  rewrite page_offset by lia.
  erewrite resolved_statement_continues.
  2: { cbn [Pg.execute]. unfold ITEMS_PER_PAGE.
       rewrite valid_text_pattern, V, limit_offset_integer by lia.
       destruct (Z.ltb_spec ((page - 1) * 6) 0); [lia |]. reflexivity. }
  unfold ret, page_window, fst.
  now rewrite skipn_map, firstn_map.
Qed.

(** C1, as stated, fails: a query is any string, and for one with a NUL
    character (which PostgreSQL does not take as text) the call throws
    instead of returning a page; so it does for a page number whose offset
    is beyond the range of the server's integers. *)
Theorem fetchFilteredInvoices_page_counterexample :
  (fst (fetchFilteredInvoices (Pg.execute Pg.C_locale Sample.store)
          (String zero "") (inject_Z 1) fresh)
   = inl (Error "Failed to fetch invoices.")
   /\ ~ page_contract Pg.C_locale Sample.store (String zero "") 1 fresh)
  /\ (fst (fetchFilteredInvoices (Pg.execute Pg.C_locale Sample.store)
             "" (inject_Z (2 ^ 61)) fresh)
      = inl (Error "Failed to fetch invoices.")
      /\ ~ page_contract Pg.C_locale Sample.store "" (2 ^ 61) fresh).
Proof.
  assert (E1 : fst (fetchFilteredInvoices
                      (Pg.execute Pg.C_locale Sample.store)
                      (String zero "") (inject_Z 1) fresh)
               = inl (Error "Failed to fetch invoices."))
    by (vm_compute; reflexivity).
  assert (E2 : fst (fetchFilteredInvoices
                      (Pg.execute Pg.C_locale Sample.store)
                      "" (inject_Z (2 ^ 61)) fresh)
               = inl (Error "Failed to fetch invoices."))
    by (vm_compute; reflexivity).
  split; (split; [assumption |]);
    intros (rows & ordered & E & _); congruence.
Qed.

(** C1, amended: for every query that is a text (no NUL character) and
    every integer page number from 1 up whose offset [(page - 1) * 6] is
    below [2^53], the call succeeds with at most 6 rows, ordered by invoice
    date descending; the rows are the window that starts at offset
    [(page - 1) * 6] of the matching rows (the joined rows of which some
    searched column is [ILIKE] [%query%]) in an order by date, descending.
    The order of rows with equal dates is the engine's, and need not be
    the same from one call to the next.  For a query without wildcard
    characters the matching rows are those that contain the query, letter
    case aside. *)
Theorem fetchFilteredInvoices_page
    (e : Engine) (d : Database) (query : string) (page : Z) (w : World) :
  Lawful e ->
  Pg.valid_text query = true ->
  1 <= page ->
  (page - 1) * 6 < 2 ^ 53 ->
  page_contract e d query page w
  /\ (Forall (fun c => literal c = true) (characters e query) ->
      searched_rows e d query = substring_rows e d query).
Proof.
  intros L V Hp Hb. split; [| now apply searched_rows_substring].
  destruct (search_order e d query (Some (6, inject_Z ((page - 1) * 6))) L)
    as [P S].
  eexists _, _. split; [now apply fetchFilteredInvoices_window |].
  split; [apply firstn_le_length |].
  split; [apply StronglySorted_firstn, StronglySorted_skipn, S |].
  split; [exact P |]. split; [exact S | reflexivity].
Qed.

Lemma fetchFilteredInvoices_page_witness :
  Lawful Pg.C_locale
  /\ Pg.valid_text "lic" = true
  /\ 1 <= 2
  /\ (2 - 1) * 6 < 2 ^ 53
  /\ page_contract Pg.C_locale Sample.store "lic" 2 fresh.
Proof.
  assert (V : Pg.valid_text "lic" = true) by reflexivity.
  assert (H1 : 1 <= 2) by (vm_compute; discriminate).
  assert (H2 : (2 - 1) * 6 < 2 ^ 53) by (vm_compute; reflexivity).
  split; [exact C_locale_lawful |]. split; [exact V |].
  split; [exact H1 |]. split; [exact H2 |].
  exact (proj1 (fetchFilteredInvoices_page Pg.C_locale Sample.store "lic" 2
                  fresh C_locale_lawful V H1 H2)).
Defined.

Lemma page_window_nonempty {A} (page : Z) (l : list A) :
  1 <= page ->
  (page_window page l <> [] <-> (page - 1) * 6 < Z.of_nat (List.length l)).
Proof.
  intro Hp. unfold page_window.
  pose proof (skipn_all_iff (Z.to_nat ((page - 1) * 6)) l) as K.
  destruct (skipn (Z.to_nat ((page - 1) * 6)) l) as [| x rest] eqn:E.
  - cbn. split; [congruence |]. intro.
    assert ((List.length l <= Z.to_nat ((page - 1) * 6))%nat)
      by (apply K; reflexivity).
    lia.
  - cbn. split; [intros _ | discriminate].
    destruct (Nat.le_gt_cases (List.length l) (Z.to_nat ((page - 1) * 6)))
      as [L | L]; [apply K in L; discriminate | lia].
Qed.

(** Below [2^53] rows the double quotient [count / 6] has the ceiling of
    the exact one. *)
Lemma pages_division (n : Z) :
  0 <= n < 2 ^ 53 ->
  Math_ceil (Double.div (Double.of_integer n) (inject_Z ITEMS_PER_PAGE))
  = (n + 5) / 6.
Proof.
  intros [H0 Hb].
  destruct (Z.eq_dec n 0) as [-> | Hn]; [vm_compute; reflexivity |].
  unfold Double.of_integer. rewrite round_integer by lia.
  destruct (div_error n 6 51 ltac:(lia) ltac:(lia) ltac:(lia) ltac:(lia))
    as (m & k & Hk & Ev & Hm).
  unfold Math_ceil, ITEMS_PER_PAGE. rewrite Ev.
  assert (Hp : 4 <= 2 ^ k).
  { change 4 with (2 ^ 2). apply Z.pow_le_mono_r; lia. }
  unfold Qceiling, Qfloor, Qopp. cbn [Qnum Qden].
  rewrite Z2Pos.id by lia.
  set (P := 2 ^ k) in *.
  pose proof (Z.div_mod (n + 5) 6 ltac:(lia)) as D.
  pose proof (Z.mod_pos_bound (n + 5) 6 ltac:(lia)) as B.
  set (t := (n + 5) / 6) in *.
  assert (Ht : - m = P * (- t) + (t * P - m)) by lia.
  assert (Hr : 0 <= t * P - m < P) by nia.
  rewrite <- (Z.div_unique _ _ _ _ (or_introl Hr) Ht). lia.
Qed.

Lemma fetchInvoicesPages_value
    (e : Engine) (d : Database) (query : string) (w : World) :
  Pg.valid_text query = true ->
  fst (fetchInvoicesPages (Pg.execute e d) query w)
  = inr (Math_ceil
           (Double.div
              (Double.of_integer
                 (Z.of_nat (List.length (searched_rows e d query))))
              (inject_Z ITEMS_PER_PAGE))).
Proof.
  intro V. unfold fetchInvoicesPages, try_catch.
  erewrite resolved_statement_continues.
  2: { cbn [Pg.execute]. rewrite valid_text_pattern, V. reflexivity. }
  unfold property, first, hd_error, bind, ret, count, Number_, nullish, fst,
    Pg.count_star.
  now rewrite <- matching_invoices_searched, length_map.
Qed.

(** C2, as stated, fails: the filter is [ILIKE] on [%query%], in which the
    [_] and [%] of the query are wildcards.  For the query ["_"] no row of
    the sample store contains an underscore, so under a substring filter
    there would be no page, but all 7 rows match and the call returns 2. *)
Theorem fetchInvoicesPages_counterexample :
  fst (fetchInvoicesPages (Pg.execute Pg.C_locale Sample.store) "_" fresh)
  = inr 2
  /\ substring_rows Pg.C_locale Sample.store "_" = []
  /\ ~ pages_contract Pg.C_locale Sample.store "_" fresh.
Proof.
  assert (E : fst (fetchInvoicesPages (Pg.execute Pg.C_locale Sample.store)
                     "_" fresh) = inr 2) by (vm_compute; reflexivity).
  assert (S : substring_rows Pg.C_locale Sample.store "_" = [])
    by (vm_compute; reflexivity).
  split; [exact E |]. split; [exact S |].
  unfold pages_contract. rewrite E, S. discriminate.
Qed.

(** C2, amended: for every query that is a text, with fewer than [2^53]
    matching rows, the call succeeds with [ceil(n / 6)], where [n] counts
    the rows that match under the filter of [fetchFilteredInvoices] (some
    searched column is [ILIKE] [%query%]); for a query without wildcard
    characters these are the rows that contain the query, letter case
    aside.  The result is the one integer [p] with
    [6 * (p - 1) < n <= 6 * p], and the pages of [fetchFilteredInvoices]
    that have rows are exactly pages 1 to [p]. *)
Theorem fetchInvoicesPages_ceiling
    (e : Engine) (d : Database) (query : string) (w : World) :
  Lawful e ->
  Pg.valid_text query = true ->
  Z.of_nat (List.length (searched_rows e d query)) < 2 ^ 53 ->
  exists totalPages,
    fst (fetchInvoicesPages (Pg.execute e d) query w) = inr totalPages
    /\ (let n := Z.of_nat (List.length (searched_rows e d query)) in
        6 * (totalPages - 1) < n <= 6 * totalPages
        /\ totalPages = (n + 5) / 6)
    /\ (Forall (fun c => literal c = true) (characters e query) ->
        searched_rows e d query = substring_rows e d query)
    /\ forall page w',
        1 <= page ->
        (page - 1) * 6 < 2 ^ 53 ->
        exists rows,
          fst (fetchFilteredInvoices (Pg.execute e d) query (inject_Z page)
                 w')
          = inr rows
          /\ (rows <> [] <-> page <= totalPages).
Proof.
  intros L V Hn.
  set (n := Z.of_nat (List.length (searched_rows e d query))) in *.
  exists ((n + 5) / 6).
  pose proof (Z.div_mod (n + 5) 6 ltac:(lia)) as D.
  pose proof (Z.mod_pos_bound (n + 5) 6 ltac:(lia)) as B.
  split; [| split; [| split]].
  - rewrite fetchInvoicesPages_value by exact V. fold n.
    now rewrite pages_division by lia.
  - cbv zeta. split; [lia | reflexivity].
  - now apply searched_rows_substring.
  - intros page w' Hp Hb.
    destruct (search_order e d query
                (Some (6, inject_Z ((page - 1) * 6))) L) as [P _].
    eexists. split; [now apply fetchFilteredInvoices_window |].
    rewrite page_window_nonempty by exact Hp.
    rewrite (Permutation_length P). fold n. lia.
Qed.

Lemma fetchInvoicesPages_ceiling_witness :
  Lawful Pg.C_locale
  /\ Pg.valid_text "ALICE" = true
  /\ Z.of_nat (List.length (searched_rows Pg.C_locale Sample.store "ALICE"))
     < 2 ^ 53
  /\ exists totalPages,
      fst (fetchInvoicesPages (Pg.execute Pg.C_locale Sample.store) "ALICE"
             fresh)
      = inr totalPages
      /\ totalPages = 2.
Proof.
  assert (V : Pg.valid_text "ALICE" = true) by reflexivity.
  assert (H : Z.of_nat
                (List.length
                   (searched_rows Pg.C_locale Sample.store "ALICE"))
              < 2 ^ 53) by (vm_compute; reflexivity).
  split; [exact C_locale_lawful |]. split; [exact V |]. split; [exact H |].
  destruct (fetchInvoicesPages_ceiling Pg.C_locale Sample.store "ALICE" fresh
              C_locale_lawful V H) as (totalPages & E & [_ T] & _).
  exists totalPages. split; [exact E |].
  rewrite T. vm_compute. reflexivity.
Defined.

(** ** The customer listing *)

Lemma customers_eqb_eq (a b : customers.row) :
  customers.eqb a b = true <-> a = b.
Proof.
  unfold customers.eqb. rewrite !andb_true_iff, !String.eqb_eq.
  destruct a, b; cbn. split.
  - intros [[[-> ->] ->] ->]. reflexivity.
  - intros [= -> -> -> ->]. auto.
Qed.

Lemma group_keys_complete (c : customers.row) (cs : list customers.row) :
  In c cs -> In c (Pg.group_keys cs).
Proof.
  induction cs as [| x cs IH]; cbn; [tauto |].
  intros [-> | H]; [now left |].
  destruct (customers.eqb c x) eqn:E.
  - left. symmetry. now apply customers_eqb_eq.
  - right. apply filter_In. split; [now apply IH | now rewrite E].
Qed.

Section NoInvoices.
Variables (e : Engine) (d : Database) (c : customers.row).
Hypothesis listed : In c (customers_table d).
Hypothesis no_invoice :
  forall i, In i (invoices_table d) ->
            invoices.customer_id i <> customers.id c.

Lemma no_invoice_joins :
  filter (fun i => String.eqb (customers.id c) (invoices.customer_id i))
    (invoices_table d) = [].
Proof.
  clear listed.
  induction (invoices_table d) as [| i l IH]; [reflexivity |]. cbn.
  destruct (String.eqb_spec (customers.id c) (invoices.customer_id i))
    as [E | _].
  - exfalso. apply (no_invoice i); [now left | now symmetry].
  - apply IH. intros j Hj. apply no_invoice. now right.
Qed.

(** The left join keeps the customer, with a NULL invoice... *)
Lemma left_join_keeps : In (c, None) (Pg.customers_left_join_invoices d).
Proof.
  apply in_flat_map. exists c. split; [exact listed |].
  rewrite no_invoice_joins. now left.
Qed.

(** ... and that is the only kind of row the customer has. *)
Lemma left_join_only_null (r : customers.row * nullable invoices.row) :
  In r (Pg.customers_left_join_invoices d) -> fst r = c -> snd r = None.
Proof.
  intros Hr Hc. apply in_flat_map in Hr. destruct Hr as (c' & _ & Hr).
  destruct (filter _ (invoices_table d)) as [| i l] eqn:E.
  - destruct Hr as [<- | []]. reflexivity.
  - apply in_map_iff in Hr. destruct Hr as (j & <- & _).
    cbn in Hc. subst c'. rewrite no_invoice_joins in E. discriminate.
Qed.

Lemma no_invoices_aggregates (pattern : string) :
  Pg.customer_matches e pattern (c, None) = true ->
  Pg.customers_table_row
    (filter (Pg.customer_matches e pattern)
       (Pg.customers_left_join_invoices d))
    c
  = {| CustomersTable.id := customers.id c;
       CustomersTable.name := customers.name c;
       CustomersTable.email := customers.email c;
       CustomersTable.image_url := customers.image_url c;
       CustomersTable.total_invoices := 0;
       CustomersTable.total_pending := Some 0;
       CustomersTable.total_paid := Some 0 |}.
Proof.
  intro Hm. unfold Pg.customers_table_row.
  set (group := filter (fun r => customers.eqb (fst r) c) _).
  assert (Hin : In (c, None) group).
  { apply filter_In. split.
    - apply filter_In. split; [apply left_join_keeps | exact Hm].
    - now apply customers_eqb_eq. }
  assert (Hnull : Forall (fun r => snd r = None) group).
  { apply Forall_forall. intros r Hr.
    apply filter_In in Hr. destruct Hr as [Hr Hk].
    apply filter_In in Hr. destruct Hr as [Hr _].
    apply left_join_only_null; [exact Hr | now apply customers_eqb_eq]. }
  assert (Hcount : filter Pg.has_invoice group = []).
  { clear Hin.
    induction Hnull as [| [c' [i |]] l Hr _ IH];
      [reflexivity | discriminate Hr | exact IH]. }
  assert (Hsum : forall s, Pg.sum (Pg.joined_amount_if s) group = Some 0).
  { intro s. unfold Pg.sum. destruct group as [| r0 l0]; [destruct Hin |].
    f_equal. clear Hin Hcount.
    induction Hnull as [| [c' [i |]] l Hr _ IH];
      [reflexivity | discriminate Hr |].
    cbn [fold_right]. rewrite IH. reflexivity. }
  now rewrite Hcount, !Hsum.
Qed.
End NoInvoices.

(** C8: a customer whose name or email matches the filter and who has no
    invoice is still in the result of [fetchFilteredCustomers], with
    [total_invoices] 0 and both totals ["$0.00"]. *)
Theorem fetchFilteredCustomers_without_invoices
    (e : Engine) (d : Database) (query : string) (w : World)
    (c : customers.row) :
  Lawful e ->
  In c (customers_table d) ->
  Pg.ilike e (customers.name c) ("%" ++ query ++ "%")
  || Pg.ilike e (customers.email c) ("%" ++ query ++ "%") = true ->
  (forall i, In i (invoices_table d) ->
             invoices.customer_id i <> customers.id c) ->
  exists rows,
    fst (fetchFilteredCustomers (Pg.execute e d) query w) = inr rows
    /\ In {| CustomersTable.id := customers.id c;
             CustomersTable.name := customers.name c;
             CustomersTable.email := customers.email c;
             CustomersTable.image_url := customers.image_url c;
             CustomersTable.total_invoices := 0;
             CustomersTable.total_pending := "$0.00";
             CustomersTable.total_paid := "$0.00" |} rows.
Proof.
  intros L Hc Hm Hno.
  set (pattern := "%" ++ query ++ "%") in *.
  assert (V : Pg.valid_text pattern = true).
  { unfold Pg.ilike in Hm. destruct (Pg.valid_text pattern);
      [reflexivity | discriminate Hm]. }
  unfold fetchFilteredCustomers, try_catch.
  erewrite resolved_statement_continues.
  2: { cbn [Pg.execute]. fold pattern. rewrite V. reflexivity. }
  unfold ret, fst. eexists. split; [reflexivity |].
  set (rows := filter (Pg.customer_matches e pattern)
                 (Pg.customers_left_join_invoices d)).
  apply in_map_iff.
  exists (Pg.customers_table_row rows c). split.
  - unfold rows. rewrite (no_invoices_aggregates e d c Hc Hno pattern Hm).
    vm_compute. reflexivity.
  - eapply Permutation_in; [symmetry; apply order_by_permutation |].
    eapply Permutation_in;
      [symmetry; apply (tie_order_permutation e L) |].
    apply in_map, group_keys_complete.
    apply (in_map fst _ (c, None)).
    apply filter_In. split; [now apply left_join_keeps | exact Hm].
Qed.

Lemma fetchFilteredCustomers_without_invoices_witness :
  exists rows,
    fst (fetchFilteredCustomers (Pg.execute Pg.C_locale Sample.store) "BOB"
           fresh)
    = inr rows
    /\ In (no_invoices_row Sample.bob) rows.
Proof.
  apply (fetchFilteredCustomers_without_invoices Pg.C_locale Sample.store
           "BOB" fresh Sample.bob).
  - exact C_locale_lawful.
  - right; left; reflexivity.
  - reflexivity.
  - intros i Hi. cbn in Hi.
    repeat (destruct Hi as [<- | Hi]; [discriminate |]). destruct Hi.
Defined.

(** * Further properties of the code *)

(** ** The pagination window *)

Lemma nth_error_pages (start n i : nat) (item : PageItem) :
  nth_error (map (fun k => PageNumber (Z.of_nat k)) (seq start n)) i
  = Some item ->
  item = PageNumber (Z.of_nat (start + i)) /\ (i < n)%nat.
Proof.
  revert start i. induction n as [| n IH]; intros start i H.
  - destruct i; discriminate.
  - destruct i as [| i]; cbn in H.
    + injection H as <-. rewrite Nat.add_0_r. split; [reflexivity | lia].
    + apply IH in H. destruct H as [-> L].
      split; [f_equal; f_equal; lia | lia].
Qed.

Lemma page_numbers_all (start n : nat) :
  page_numbers (map (fun k => PageNumber (Z.of_nat k)) (seq start n))
  = map Z.of_nat (seq start n).
Proof.
  revert start. induction n as [| n IH]; intro start; [reflexivity |].
  cbn. unfold page_numbers in IH. now rewrite IH.
Qed.

Lemma seq_increasing (start n : nat) :
  StronglySorted Z.lt (map Z.of_nat (seq start n)).
Proof.
  revert start. induction n as [| n IH]; intro start; cbn; constructor.
  - apply IH.
  - apply Forall_forall. intros z Hz. apply in_map_iff in Hz.
    destruct Hz as (k & <- & Hk). apply in_seq in Hk. lia.
Qed.

Ltac pagination_cases currentPage totalPages :=
  unfold generatePagination; rewrite ?Array_from_length_pages;
  destruct (Z.leb_spec totalPages 7);
  [| destruct (Z.leb_spec currentPage 3);
     [| rewrite (Z.geb_leb currentPage (totalPages - 2));
        destruct (Z.leb_spec (totalPages - 2) currentPage)]].

(** X1: whatever the two arguments are, the window has at most 7 items and
    its page numbers are strictly increasing and lie between 1 and
    [totalPages]; no page is shown twice and none outside the range. *)
Theorem generatePagination_numbers (currentPage totalPages : Z) :
  (List.length (generatePagination currentPage totalPages) <= 7)%nat
  /\ StronglySorted Z.lt
       (page_numbers (generatePagination currentPage totalPages))
  /\ Forall (fun n => 1 <= n <= totalPages)
       (page_numbers (generatePagination currentPage totalPages)).
Proof.
  pagination_cases currentPage totalPages.
  - rewrite page_numbers_all, length_map, length_seq.
    split; [lia |]. split; [apply seq_increasing |].
    apply Forall_forall. intros z Hz. apply in_map_iff in Hz.
    destruct Hz as (k & <- & Hk). apply in_seq in Hk. lia.
  - cbn. split; [lia |].
    split; repeat constructor; lia.
  - cbn. split; [lia |].
    split; repeat constructor; lia.
  - cbn. split; [lia |].
    split; repeat constructor; lia.
Qed.

(** X2: for a current page within [1 .. totalPages] the window starts with
    page 1, ends with the last page, and shows the current page. *)
Theorem generatePagination_shows_current (currentPage totalPages : Z) :
  1 <= currentPage <= totalPages ->
  hd_error (generatePagination currentPage totalPages) = Some (PageNumber 1)
  /\ last (generatePagination currentPage totalPages) (PageText "")
     = PageNumber totalPages
  /\ In (PageNumber currentPage) (generatePagination currentPage totalPages).
Proof.
  intro H. pagination_cases currentPage totalPages.
  - destruct (Z.to_nat totalPages) as [| n] eqn:E; [lia |].
    split; [reflexivity |]. split.
    + rewrite seq_S, map_app. cbn [map]. rewrite last_last. f_equal. lia.
    + apply in_map_iff. exists (Z.to_nat currentPage).
      split; [f_equal; lia | apply in_seq; lia].
  - split; [reflexivity |]. split; [reflexivity |].
    assert (currentPage = 1 \/ currentPage = 2 \/ currentPage = 3)
      as [-> | [-> | ->]] by lia; cbn; auto.
  - split; [reflexivity |]. split; [reflexivity |].
    assert (currentPage = totalPages - 2 \/ currentPage = totalPages - 1
            \/ currentPage = totalPages) as [-> | [-> | ->]] by lia;
      cbn; auto 7.
  - split; [reflexivity |]. split; [reflexivity |]. cbn. auto 7.
Qed.

Lemma generatePagination_shows_current_witness :
  1 <= 5 <= 10
  /\ hd_error (generatePagination 5 10) = Some (PageNumber 1)
  /\ last (generatePagination 5 10) (PageText "") = PageNumber 10
  /\ In (PageNumber 5) (generatePagination 5 10).
Proof.
  split; [lia |]. apply (generatePagination_shows_current 5 10). lia.
Defined.

(** X3: the window never hides a gap and never shows a needless ellipsis:
    two page numbers side by side are consecutive, and a text item between
    two page numbers is the ellipsis ["..."] with at least one page left
    out between them. *)
Theorem generatePagination_gaps
    (currentPage totalPages : Z) (i : nat) (a b : Z) :
  nth_error (generatePagination currentPage totalPages) i
  = Some (PageNumber a) ->
  (nth_error (generatePagination currentPage totalPages) (S i)
   = Some (PageNumber b) -> b = a + 1)
  /\ (forall s,
         nth_error (generatePagination currentPage totalPages) (S i)
         = Some (PageText s) ->
         nth_error (generatePagination currentPage totalPages) (S (S i))
         = Some (PageNumber b) ->
         s = "..." /\ a + 2 <= b).
Proof.
  pagination_cases currentPage totalPages; intro Ha.
  - split.
    + intro Hb. apply nth_error_pages in Ha. apply nth_error_pages in Hb.
      destruct Ha as [[= ->] _], Hb as [[= ->] _]. lia.
    + intros s Hs. apply nth_error_pages in Hs.
      destruct Hs as [Hs _]. discriminate.
  - split; [intro Hb | intros s Hs Hb];
      do 7 (try destruct i as [| i]); cbn in *;
      try discriminate; try (destruct i; discriminate);
      repeat match goal with
        | E : Some _ = Some _ |- _ => injection E as E; subst
        end; try split; try reflexivity; lia.
  - split; [intro Hb | intros s Hs Hb];
      do 7 (try destruct i as [| i]); cbn in *;
      try discriminate; try (destruct i; discriminate);
      repeat match goal with
        | E : Some _ = Some _ |- _ => injection E as E; subst
        end; try split; try reflexivity; lia.
  - split; [intro Hb | intros s Hs Hb];
      do 7 (try destruct i as [| i]); cbn in *;
      try discriminate; try (destruct i; discriminate);
      repeat match goal with
        | E : Some _ = Some _ |- _ => injection E as E; subst
        end; try split; try reflexivity; lia.
Qed.

Lemma generatePagination_gaps_witness :
  nth_error (generatePagination 5 10) 0 = Some (PageNumber 1)
  /\ (forall s,
         nth_error (generatePagination 5 10) 1 = Some (PageText s) ->
         nth_error (generatePagination 5 10) 2 = Some (PageNumber 4) ->
         s = "..." /\ 1 + 2 <= 4).
Proof.
  split; [reflexivity |].
  apply (generatePagination_gaps 5 10 0 1 4). reflexivity.
Defined.


(** ** What every query function does to the world *)

Ltac unfold_queries :=
  unfold run, thrown, fetchRevenue, fetchLatestInvoices, fetchCardData,
    fetchFilteredInvoices, fetchInvoicesPages, fetchInvoiceById,
    fetchCustomers, fetchFilteredCustomers, try_catch, bind, await_sql, sql,
    await, console_error, throw, ret, property, first, hd_error.

(** X4: whatever the database does, a query function either returns or
    throws [Error] with its own fixed message, never anything else (a
    [TypeError] raised inside the [try] block is translated as well).  It
    hands the database exactly its own statements, all three of them
    for [fetchCardData] even when one fails, since they are started before
    any is awaited; it writes nothing to the console when it returns and
    exactly one line when it throws. *)
Theorem query_function_outcome
    (db : Sql) (race : nat) (f : QueryFunction) (w : World) :
  (fst (run db race f w) = None
   /\ console (snd (run db race f w)) = console w
   \/ fst (run db race f w) = Some (Error (failure_message f))
      /\ exists e,
          console (snd (run db race f w))
          = (console w ++ [("Database Error:", e)])%list)
  /\ issued (snd (run db race f w)) = (issued w ++ database_calls f)%list.
Proof.
  destruct f; cbn [database_calls failure_message].
  3: {
    unfold_queries. cbn [issued console fst snd].
    repeat rewrite <- app_assoc. cbn [app].
    destruct (db CountInvoices) as [e0 | [| r0 l0]];
      destruct (db CountCustomers) as [e1 | [| r1 l1]];
      destruct (db SumInvoiceStatus) as [e2 | [| r2 l2]];
      cbn; (split; [| reflexivity]);
      first [ left; split; reflexivity
            | right; split; [reflexivity | eexists; reflexivity] ]. }
  all: unfold_queries; cbn [issued console fst snd];
    destruct (db _) as [e | [| r l]];
    cbn; (split; [| reflexivity]);
    first [ left; split; reflexivity
          | right; split; [reflexivity | eexists; reflexivity] ].
Qed.

(** X5: when the count statement resolves without any row, reading
    [data[0].count] throws inside the [try] block, so [fetchInvoicesPages]
    ends in its generic error (with the [TypeError] on the console) instead
    of returning a page count. *)
Theorem fetchInvoicesPages_without_row
    (db : Sql) (query : string) (w : World) :
  db (CountFilteredInvoices ("%" ++ query ++ "%")) = inr [] ->
  fst (fetchInvoicesPages db query w)
  = inl (Error "Failed to fetch total number of invoices.")
  /\ exists message,
      console (snd (fetchInvoicesPages db query w))
      = (console w ++ [("Database Error:", TypeError message)])%list.
Proof.
  intro H. unfold fetchInvoicesPages, try_catch.
  erewrite resolved_statement_continues by exact H.
  cbn. split; [reflexivity | eexists; reflexivity].
Qed.

Lemma fetchInvoicesPages_without_row_witness :
  fst (fetchInvoicesPages count_without_rows "bob" fresh)
  = inl (Error "Failed to fetch total number of invoices.").
Proof.
  apply (fetchInvoicesPages_without_row count_without_rows "bob" fresh).
  reflexivity.
Defined.

(** ** The dashboard summary *)

Lemma sum_amount_if (s : Status) (invs : list invoices.row) :
  nullish (Pg.sum (Pg.amount_if s) invs) 0 = total_amount s invs.
Proof.
  assert (E : fold_right (fun r acc => Pg.amount_if s r + acc) 0 invs
              = total_amount s invs).
  { unfold total_amount. induction invs as [| i l IH]; [reflexivity |].
    cbn. rewrite IH. unfold Pg.amount_if.
    destruct (Status_eqb (invoices.status i) s); reflexivity. }
  destruct invs; [reflexivity | exact E].
Qed.

(** X6: on a working database [fetchCardData] returns the number of
    customers, the number of invoices, and the paid and pending totals (the
    sums of the amounts of the invoices in each status) as currency
    strings; over an empty invoice table the sums are NULL and the totals
    come out as ["$0.00"]. *)
Theorem fetchCardData_totals
    (e : Engine) (d : Database) (race : nat) (w : World) :
  fst (fetchCardData (Pg.execute e d) race w)
  = inr {| numberOfCustomers := Z.of_nat (List.length (customers_table d));
           numberOfInvoices := Z.of_nat (List.length (invoices_table d));
           totalPaidInvoices :=
             formatCurrency (total_amount paid (invoices_table d));
           totalPendingInvoices :=
             formatCurrency (total_amount pending (invoices_table d)) |}
  /\ (invoices_table d = [] ->
      exists customers,
        fst (fetchCardData (Pg.execute e d) race w)
        = inr {| numberOfCustomers := customers; numberOfInvoices := 0;
                 totalPaidInvoices := "$0.00";
                 totalPendingInvoices := "$0.00" |}).
Proof.
  assert (E : fst (fetchCardData (Pg.execute e d) race w)
    = inr {| numberOfCustomers := Z.of_nat (List.length (customers_table d));
             numberOfInvoices := Z.of_nat (List.length (invoices_table d));
             totalPaidInvoices :=
               formatCurrency (total_amount paid (invoices_table d));
             totalPendingInvoices :=
               formatCurrency (total_amount pending (invoices_table d)) |}).
  { unfold_queries. cbn. unfold Pg.count_star.
    now rewrite <- !sum_amount_if. }
  split; [exact E |].
  intro H. rewrite E, H. eexists. vm_compute. reflexivity.
Qed.

(** ** Latest invoices *)




(** ** Soundness and completeness of the paginated search *)







Lemma firstn_add {A} (a b : nat) (l : list A) :
  firstn (a + b) l = (firstn a l ++ firstn b (skipn a l))%list.
Proof.
  revert l. induction a as [| a IH]; intro l; [reflexivity |].
  destruct l as [| x l]; cbn; [now rewrite firstn_nil | now rewrite IH].
Qed.

Lemma page_windows_concat {A} (n : nat) (l : list A) :
  flat_map (fun p => page_window (Z.of_nat p) l) (seq 1 n)
  = firstn (6 * n) l.
Proof.
  induction n as [| n IH]; [reflexivity |].
  rewrite seq_S, flat_map_app, IH. cbn [flat_map]. rewrite app_nil_r.
  replace (6 * S n)%nat with (6 * n + 6)%nat by lia.
  rewrite firstn_add. f_equal. unfold page_window. do 2 f_equal. lia.
Qed.

Lemma Date_leb_antisym (a b : Date.t) :
  Date.leb a b = true -> Date.leb b a = true -> a = b.
Proof.
  destruct a as [y m d], b as [y' m' d']. unfold Date.leb.
  cbn [Date.year Date.month Date.day].
  rewrite !orb_true_iff, !andb_true_iff, !orb_true_iff, !andb_true_iff,
    !Z.ltb_lt, !Z.eqb_eq, !Z.leb_le.
  intros H1 H2.
  assert (y = y') by lia. assert (m = m') by lia. assert (d = d') by lia.
  now subst.
Qed.

Lemma NoDup_map_injective {A B} (f : A -> B) (l : list A) (a b : A) :
  NoDup (map f l) -> In a l -> In b l -> f a = f b -> a = b.
Proof.
  induction l as [| x l IH]; cbn; [tauto |].
  intros ND Ha Hb E. inversion ND as [| ? ? Hx ND']; subst.
  destruct Ha as [-> | Ha], Hb as [-> | Hb]; [reflexivity | | | now apply IH].
  - exfalso. apply Hx. rewrite E. now apply in_map.
  - exfalso. apply Hx. rewrite <- E. now apply in_map.
Qed.

(** Where no two elements compare as equal, a list has one sorted
    arrangement. *)
Lemma sorted_arrangement_unique {A} (R : A -> A -> Prop) (l1 l2 : list A) :
  (forall a b, In a l1 -> In b l1 -> R a b -> R b a -> a = b) ->
  Permutation l1 l2 ->
  StronglySorted R l1 -> StronglySorted R l2 -> l1 = l2.
Proof.
  intros Anti P S1. revert l2 P.
  induction S1 as [| a l1 S1 IH F1]; intros l2 P S2.
  - apply Permutation_nil in P. now subst.
  - destruct S2 as [| b l2 S2 F2];
      [apply Permutation_sym, Permutation_nil in P; discriminate |].
    assert (Eab : a = b).
    { assert (Ha : In a (b :: l2)) by (apply (Permutation_in _ P); now left).
      assert (Hb : In b (a :: l1))
        by (apply (Permutation_in _ (Permutation_sym P)); now left).
      destruct Ha as [-> | Ha]; [reflexivity |].
      destruct Hb as [-> | Hb]; [reflexivity |].
      rewrite Forall_forall in F1, F2.
      apply Anti; [now left | now right | now apply F1 | now apply F2]. }
    subst b. f_equal. apply IH.
    + intros x y Hx Hy. apply Anti; now right.
    + now apply Permutation_cons_inv with a.
    + exact S2.
Qed.

(** When no two invoices that have a customer share a date, every window
    is cut from the same ordered list. *)
Lemma search_order_unique (e : Engine) (d : Database) (pattern : string)
    (window : nullable (Z * Q)) :
  Lawful e ->
  NoDup (map (fun r => invoices.date (fst r)) (invoices_with_customers d)) ->
  Pg.order_by Pg.date_desc
    (tie_order e _ window (Pg.matching_invoices e d pattern))
  = Pg.order_by Pg.date_desc (Pg.matching_invoices e d pattern).
Proof.
  intros L ND.
  apply (sorted_arrangement_unique (fun a b => Pg.date_desc a b = true)).
  - intros a b Ha Hb Hab Hba.
    assert (In_all : forall r,
               In r (Pg.order_by Pg.date_desc
                       (tie_order e _ window
                          (Pg.matching_invoices e d pattern))) ->
               In r (invoices_with_customers d)).
    { intros r Hr.
      apply (Permutation_in _ (order_by_permutation _ _)) in Hr.
      apply (Permutation_in _ (tie_order_permutation e L _ _ _)) in Hr.
      apply filter_In in Hr. rewrite <- join_is_filtered_product.
      apply Hr. }
    apply (NoDup_map_injective _ _ a b ND); auto.
    unfold Pg.date_desc in *. now apply Date_leb_antisym.
  - rewrite !order_by_permutation. apply (tie_order_permutation e L).
  - apply date_desc_sorted.
  - apply date_desc_sorted.
Qed.

(** X9: when no two invoices that have a customer share a date (so that
    the order by date leaves nothing to the engine), walking the pages 1
    to [totalPages], with [totalPages] as [fetchInvoicesPages] returns it,
    yields every matching invoice row exactly as often as it matches, none
    lost and none repeated, and in date-descending order overall.  (The
    query is a text and fewer than [2^53] rows match.) *)
Theorem pagination_partitions
    (e : Engine) (d : Database) (query : string) (w : World) :
  Lawful e ->
  Pg.valid_text query = true ->
  Z.of_nat (List.length (searched_rows e d query)) < 2 ^ 53 ->
  NoDup (map (fun r => invoices.date (fst r)) (invoices_with_customers d)) ->
  exists totalPages,
    fst (fetchInvoicesPages (Pg.execute e d) query w) = inr totalPages
    /\ Permutation
         (all_pages (Pg.execute e d) query (Z.to_nat totalPages))
         (searched_rows e d query)
    /\ newest_first (all_pages (Pg.execute e d) query (Z.to_nat totalPages)).
Proof.
  intros L V Hn ND.
  set (n := Z.of_nat (List.length (searched_rows e d query))) in *.
  set (ordered :=
         map Pg.invoices_table_row
           (Pg.order_by Pg.date_desc
              (Pg.matching_invoices e d ("%" ++ query ++ "%")))).
  assert (P : Permutation ordered (searched_rows e d query)).
  { unfold ordered. rewrite <- matching_invoices_searched.
    apply Permutation_map, order_by_permutation. }
  pose proof (Z.div_mod (n + 5) 6 ltac:(lia)) as D.
  pose proof (Z.mod_pos_bound (n + 5) 6 ltac:(lia)) as B.
  exists ((n + 5) / 6).
  split.
  { rewrite fetchInvoicesPages_value by exact V. fold n.
    now rewrite pages_division by lia. }
  assert (E : all_pages (Pg.execute e d) query (Z.to_nat ((n + 5) / 6))
              = ordered).
  { unfold all_pages.
    transitivity
      (flat_map (fun p => page_window (Z.of_nat p) ordered)
         (seq 1 (Z.to_nat ((n + 5) / 6)))).
    - rewrite !flat_map_concat_map. f_equal. apply map_ext_in.
      intros p Hp. apply in_seq in Hp.
      rewrite fetchFilteredInvoices_window by (try exact V; lia).
      now rewrite search_order_unique.
    - rewrite page_windows_concat. apply firstn_all2.
      rewrite (Permutation_length P). fold n. lia. }
  rewrite E. split; [exact P |].
  apply newest_first_rows, date_desc_sorted.
Qed.

Lemma pagination_partitions_witness :
  exists totalPages,
    fst (fetchInvoicesPages (Pg.execute Pg.C_locale Sample.store) "a" fresh)
    = inr totalPages
    /\ Permutation
         (all_pages (Pg.execute Pg.C_locale Sample.store) "a"
            (Z.to_nat totalPages))
         (searched_rows Pg.C_locale Sample.store "a").
Proof.
  destruct (pagination_partitions Pg.C_locale Sample.store "a" fresh)
    as (totalPages & E & P & _).
  - exact C_locale_lawful.
  - reflexivity.
  - vm_compute. reflexivity.
  - vm_compute.
    repeat (constructor; [cbn; intuition discriminate |]). constructor.
  - exists totalPages. split; [exact E | exact P].
Defined.

(** ** Ordering by name *)

(** X10: on a working database [fetchCustomers] returns every customer of
    the store exactly as often as the store holds it, as its identifier and
    name, in ascending order of name under the collation of the
    database. *)
Theorem fetchCustomers_sorted (e : Engine) (d : Database) (w : World) :
  Lawful e ->
  exists rows,
    fst (fetchCustomers (Pg.execute e d) w) = inr rows
    /\ Permutation rows
         (map (fun c => {| CustomerField.id := customers.id c;
                           CustomerField.name := customers.name c |})
            (customers_table d))
    /\ StronglySorted
         (fun a b =>
            name_le e (CustomerField.name a) (CustomerField.name b) = true)
         rows.
Proof.
  intro L. eexists. split; [| split].
  - unfold fetchCustomers, try_catch.
    erewrite resolved_statement_continues by reflexivity. reflexivity.
  - rewrite order_by_permutation. apply (tie_order_permutation e L).
  - apply (order_by_sorted
             (fun a b =>
                name_le e (CustomerField.name a) (CustomerField.name b))).
    + intros a b. apply (name_le_total e L).
    + intros a b c. apply (name_le_transitive e L).
Qed.

Lemma fetchCustomers_sorted_witness :
  exists rows,
    fst (fetchCustomers (Pg.execute Pg.C_locale Sample.store) fresh)
    = inr rows
    /\ Permutation rows
         [{| CustomerField.id := "c1"; CustomerField.name := "Alice" |};
          {| CustomerField.id := "c2"; CustomerField.name := "Bob" |}].
Proof.
  destruct (fetchCustomers_sorted Pg.C_locale Sample.store fresh
              C_locale_lawful) as (rows & E & P & _).
  exists rows. split; [exact E | exact P].
Defined.

(** ** The customer listing, in general *)

Lemma customers_eqb_refl (c : customers.row) : customers.eqb c c = true.
Proof. now apply customers_eqb_eq. Qed.

Lemma group_keys_sound (c : customers.row) (cs : list customers.row) :
  In c (Pg.group_keys cs) -> In c cs.
Proof.
  induction cs as [| x cs IH]; cbn; [tauto |].
  intros [-> | H]; [now left |].
  apply filter_In in H. right. now apply IH.
Qed.

Lemma group_keys_NoDup (cs : list customers.row) : NoDup (Pg.group_keys cs).
Proof.
  induction cs as [| x cs IH]; cbn; constructor.
  - intro H. apply filter_In in H. destruct H as [_ H].
    now rewrite customers_eqb_refl in H.
  - now apply NoDup_filter.
Qed.

Lemma left_join_customers (d : Database) (c : customers.row) :
  In c (map fst (Pg.customers_left_join_invoices d))
  <-> In c (customers_table d).
Proof.
  unfold Pg.customers_left_join_invoices. rewrite in_map_iff. split.
  - intros (r & <- & Hr). apply in_flat_map in Hr.
    destruct Hr as (c' & Hc & Hr).
    destruct (filter _ (invoices_table d)) as [| i l].
    + destruct Hr as [<- | []]. exact Hc.
    + apply in_map_iff in Hr. destruct Hr as (j & <- & _). exact Hc.
  - intro Hc.
    destruct (filter (fun i => String.eqb (customers.id c) (invoices.customer_id i))
                (invoices_table d)) as [| i l] eqn:E.
    + exists (c, None). split; [reflexivity |].
      apply in_flat_map. exists c. split; [exact Hc |]. rewrite E. now left.
    + exists (c, Some i). split; [reflexivity |].
      apply in_flat_map. exists c. split; [exact Hc |]. rewrite E. now left.
Qed.

Lemma listed_customer_row
    (rows : list (customers.row * nullable invoices.row))
    (key : customers.row) :
  listed_customer (Pg.customers_table_row rows key) = key.
Proof. now destruct key. Qed.

(** The customers a listing shows are the group keys of the filtered
    join, in some order. *)
Lemma fetchFilteredCustomers_keys
    (e : Engine) (d : Database) (query : string) (w : World) :
  Lawful e ->
  Pg.valid_text query = true ->
  exists rows,
    fst (fetchFilteredCustomers (Pg.execute e d) query w) = inr rows
    /\ Permutation (map listed_customer rows)
         (Pg.group_keys
            (map fst
               (filter (Pg.customer_matches e ("%" ++ query ++ "%"))
                  (Pg.customers_left_join_invoices d))))
    /\ StronglySorted
         (fun a b =>
            name_le e (CustomersTable.name a) (CustomersTable.name b) = true)
         rows.
Proof.
  intros L V. eexists. split; [| split].
  - unfold fetchFilteredCustomers, try_catch.
    erewrite resolved_statement_continues.
    2: { cbn [Pg.execute]. rewrite valid_text_pattern, V. reflexivity. }
    reflexivity.
  - rewrite map_map.
    erewrite map_ext with (g := listed_customer) by (intros []; reflexivity).
    rewrite (Permutation_map listed_customer (order_by_permutation _ _)).
    rewrite (Permutation_map listed_customer
               (tie_order_permutation e L _ _ _)).
    rewrite map_map.
    erewrite map_ext with (g := fun key => key)
      by (intro; apply listed_customer_row).
    now rewrite map_id.
  - apply StronglySorted_map
      with (f := CustomersTable.with_totals
                   (fun total => formatCurrency (Number_ total)))
           (R := fun a b : CustomersTable.t string =>
                   name_le e (CustomersTable.name a) (CustomersTable.name b)
                   = true).
    apply (order_by_sorted (Pg.name_asc e)).
    + intros a b. apply (name_le_total e L).
    + intros a b c. apply (name_le_transitive e L).
Qed.

(** X11: on a working database, for a query that is a text,
    [fetchFilteredCustomers] lists exactly the customers of the store
    whose name or email passes the filter, each distinct customer once
    (however many invoices it has), in ascending order of name under the
    collation of the database. *)
Theorem fetchFilteredCustomers_listing
    (e : Engine) (d : Database) (query : string) (w : World) :
  Lawful e ->
  Pg.valid_text query = true ->
  exists rows,
    fst (fetchFilteredCustomers (Pg.execute e d) query w) = inr rows
    /\ (forall c,
           In c (map listed_customer rows)
           <-> In c (customers_table d)
               /\ Pg.ilike e (customers.name c) ("%" ++ query ++ "%")
                  || Pg.ilike e (customers.email c) ("%" ++ query ++ "%")
                  = true)
    /\ NoDup (map listed_customer rows)
    /\ StronglySorted
         (fun a b =>
            name_le e (CustomersTable.name a) (CustomersTable.name b) = true)
         rows.
Proof.
  intros L V.
  destruct (fetchFilteredCustomers_keys e d query w L V)
    as (rows & E & P & S).
  exists rows. split; [exact E |]. split; [| split; [| exact S]].
  - intro c. split.
    + intro H. apply (Permutation_in _ P), group_keys_sound in H.
      apply in_map_iff in H. destruct H as (r & <- & Hr).
      apply filter_In in Hr. destruct Hr as [Hr Hm]. split; [| exact Hm].
      apply left_join_customers. now apply in_map.
    + intros [Hc Hm]. apply (Permutation_in _ (Permutation_sym P)).
      apply group_keys_complete.
      apply left_join_customers, in_map_iff in Hc.
      destruct Hc as (r & <- & Hr). apply in_map, filter_In. now split.
  - apply (Permutation_NoDup (Permutation_sym P)), group_keys_NoDup.
Qed.

Lemma fetchFilteredCustomers_listing_witness :
  exists rows,
    fst (fetchFilteredCustomers (Pg.execute Pg.C_locale Sample.store)
           "EXAMPLE" fresh)
    = inr rows
    /\ NoDup (map listed_customer rows).
Proof.
  destruct (fetchFilteredCustomers_listing Pg.C_locale Sample.store "EXAMPLE"
              fresh C_locale_lawful eq_refl) as (rows & E & _ & N & _).
  exists rows. split; [exact E | exact N].
Defined.

Lemma joined_rows_customer (d : Database) (c : customers.row) :
  Forall (fun r => fst r = c) (joined_rows d c).
Proof.
  unfold joined_rows. destruct (invoices_of d c) as [| i l].
  - repeat constructor.
  - apply Forall_forall. intros r Hr. apply in_map_iff in Hr.
    now destruct Hr as (j & <- & _).
Qed.

Lemma filter_all {A} (f : A -> bool) (l : list A) :
  Forall (fun x => f x = true) l -> filter f l = l.
Proof.
  induction 1 as [| x l Hx _ IH]; cbn; [reflexivity |]. now rewrite Hx, IH.
Qed.

Lemma filter_none {A} (f : A -> bool) (l : list A) :
  Forall (fun x => f x = false) l -> filter f l = [].
Proof.
  induction 1 as [| x l Hx _ IH]; cbn; [reflexivity |]. now rewrite Hx.
Qed.

(** The group of a customer held once in the store is what it contributes
    to the join. *)
Lemma customer_group (e : Engine) (d : Database) (pattern : string)
    (c : customers.row) :
  NoDup (customers_table d) ->
  In c (customers_table d) ->
  Pg.customer_matches e pattern (c, None) = true ->
  filter (fun r => customers.eqb (fst r) c)
    (filter (Pg.customer_matches e pattern)
       (Pg.customers_left_join_invoices d))
  = joined_rows d c.
Proof.
  intros ND Hc Hm.
  change (Pg.customers_left_join_invoices d)
    with (flat_map (joined_rows d) (customers_table d)).
  induction (customers_table d) as [| x cs IH]; [destruct Hc |].
  inversion ND as [| ? ? Hx ND']; subst.
  cbn [flat_map]. rewrite !filter_app.
  pose proof (joined_rows_customer d x) as Fx.
  destruct (customers.eqb x c) eqn:E.
  - apply customers_eqb_eq in E. subst x.
    rewrite (filter_all (Pg.customer_matches e pattern)).
    2: { eapply Forall_impl; [| exact Fx]. intros [c' o] Hr. cbn in Hr.
         subst c'. exact Hm. }
    rewrite filter_all.
    2: { eapply Forall_impl; [| exact Fx]. intros r ->.
         apply customers_eqb_refl. }
    rewrite filter_none; [apply app_nil_r |].
    apply Forall_forall. intros r Hr. apply filter_In in Hr.
    destruct Hr as [Hr _]. apply in_flat_map in Hr.
    destruct Hr as (y & Hy & Hr).
    pose proof (joined_rows_customer d y) as Fy.
    rewrite Forall_forall in Fy. rewrite (Fy r Hr).
    destruct (customers.eqb y c) eqn:Ey; [| reflexivity].
    apply customers_eqb_eq in Ey. now subst y.
  - rewrite (filter_none (fun r => customers.eqb (fst r) c)
               (filter _ (joined_rows d x))).
    2: { apply Forall_forall. intros r Hr. apply filter_In in Hr.
         destruct Hr as [Hr _]. rewrite Forall_forall in Fx.
         now rewrite (Fx r Hr). }
    cbn [app]. apply IH; [exact ND' |].
    destruct Hc as [-> | Hc]; [| exact Hc].
    now rewrite customers_eqb_refl in E.
Qed.

Lemma joined_rows_count (d : Database) (c : customers.row) :
  Pg.count_star (filter Pg.has_invoice (joined_rows d c))
  = Z.of_nat (List.length (invoices_of d c)).
Proof.
  unfold joined_rows, Pg.count_star.
  destruct (invoices_of d c) as [| i l]; [reflexivity |].
  rewrite filter_all, length_map; [reflexivity |].
  apply Forall_forall. intros r Hr. apply in_map_iff in Hr.
  now destruct Hr as (j & <- & _).
Qed.

Lemma fold_joined_amount (c : customers.row) (s : Status)
    (invs : list invoices.row) :
  fold_right (fun r acc => Pg.joined_amount_if s r + acc) 0
    (map (fun i => (c, Some i)) invs)
  = fold_right (fun r acc => Pg.amount_if s r + acc) 0 invs.
Proof.
  induction invs as [| j invs IH]; [reflexivity |]. cbn. now rewrite IH.
Qed.

Lemma joined_rows_sum (d : Database) (c : customers.row) (s : Status) :
  Number_ (Pg.sum (Pg.joined_amount_if s) (joined_rows d c))
  = total_amount s (invoices_of d c).
Proof.
  unfold joined_rows.
  destruct (invoices_of d c) as [| i l] eqn:E; [reflexivity |].
  rewrite <- sum_amount_if. unfold Number_.
  change (Pg.sum (Pg.joined_amount_if s) (map (fun i => (c, Some i)) (i :: l)))
    with (Some (fold_right (fun r acc => Pg.joined_amount_if s r + acc) 0
                  (map (fun i => (c, Some i)) (i :: l)))).
  now rewrite fold_joined_amount.
Qed.

(** X12: for a store without duplicate customer rows, the listing row of a
    customer that passes the filter carries the number of that customer's
    invoices and, as currency strings, the sums of their pending and of
    their paid amounts. *)
Theorem fetchFilteredCustomers_aggregates
    (e : Engine) (d : Database) (query : string) (w : World)
    (c : customers.row) :
  Lawful e ->
  NoDup (customers_table d) ->
  In c (customers_table d) ->
  Pg.ilike e (customers.name c) ("%" ++ query ++ "%")
  || Pg.ilike e (customers.email c) ("%" ++ query ++ "%") = true ->
  exists rows,
    fst (fetchFilteredCustomers (Pg.execute e d) query w) = inr rows
    /\ In {| CustomersTable.id := customers.id c;
             CustomersTable.name := customers.name c;
             CustomersTable.email := customers.email c;
             CustomersTable.image_url := customers.image_url c;
             CustomersTable.total_invoices :=
               Z.of_nat (List.length (invoices_of d c));
             CustomersTable.total_pending :=
               formatCurrency (total_amount pending (invoices_of d c));
             CustomersTable.total_paid :=
               formatCurrency (total_amount paid (invoices_of d c)) |} rows.
Proof.
  intros L ND Hc Hm.
  set (pattern := "%" ++ query ++ "%") in *.
  assert (V : Pg.valid_text pattern = true).
  { unfold Pg.ilike in Hm. destruct (Pg.valid_text pattern);
      [reflexivity | discriminate Hm]. }
  unfold fetchFilteredCustomers, try_catch.
  erewrite resolved_statement_continues.
  2: { cbn [Pg.execute]. fold pattern. rewrite V. reflexivity. }
  unfold ret, fst. eexists. split; [reflexivity |].
  set (rows := filter (Pg.customer_matches e pattern)
                 (Pg.customers_left_join_invoices d)).
  apply in_map_iff.
  exists (Pg.customers_table_row rows c). split.
  - unfold Pg.customers_table_row, CustomersTable.with_totals.
    cbn [CustomersTable.id CustomersTable.name CustomersTable.email
         CustomersTable.image_url CustomersTable.total_invoices
         CustomersTable.total_pending CustomersTable.total_paid].
    unfold rows. rewrite (customer_group e d pattern c ND Hc Hm).
    now rewrite joined_rows_count, !joined_rows_sum.
  - eapply Permutation_in; [symmetry; apply order_by_permutation |].
    eapply Permutation_in;
      [symmetry; apply (tie_order_permutation e L) |].
    apply in_map, group_keys_complete.
    apply left_join_customers, in_map_iff in Hc.
    destruct Hc as ([c' o] & Hf & Hr). cbn in Hf. subst c'.
    apply (in_map fst _ (c, o)), filter_In. split; [exact Hr | exact Hm].
Qed.

Lemma fetchFilteredCustomers_aggregates_witness :
  exists rows,
    fst (fetchFilteredCustomers (Pg.execute Pg.C_locale Sample.store)
           "alice" fresh)
    = inr rows
    /\ In {| CustomersTable.id := "c1";
             CustomersTable.name := "Alice";
             CustomersTable.email := "alice@example.com";
             CustomersTable.image_url := "/customers/alice.png";
             CustomersTable.total_invoices := 7;
             CustomersTable.total_pending := "$25.00";
             CustomersTable.total_paid := "$20.00" |} rows.
Proof.
  apply (fetchFilteredCustomers_aggregates Pg.C_locale Sample.store "alice"
           fresh Sample.alice).
  - exact C_locale_lawful.
  - repeat constructor; cbn; intuition discriminate.
  - left. reflexivity.
  - reflexivity.
Defined.

(** ** Queries: the empty one, letter case, and plain text *)

Lemma characters_empty (e : Engine) : Lawful e -> characters e "" = [].
Proof. intro L. now rewrite (characters_ascii e L "") by constructor. Qed.

Lemma ilike_empty_query (e : Engine) (column : string) :
  Lawful e -> Pg.ilike e column ("%" ++ "" ++ "%") = true.
Proof.
  intro L. unfold Pg.ilike.
  rewrite (characters_pattern e L), characters_empty by exact L.
  cbn [andb app Pg.valid_text]. apply like_any_run.
  exists [], (characters e column).
  split; [reflexivity | apply like_trailing_percent].
Qed.

(** Under the empty query every row is searched out. *)
Lemma searched_rows_empty_query (e : Engine) (d : Database) :
  Lawful e ->
  searched_rows e d "" = map listed_invoice (invoices_with_customers d).
Proof.
  intro L. unfold searched_rows. f_equal.
  apply filter_all, Forall_forall. intros r _.
  cbn [searched_columns existsb].
  now rewrite ilike_empty_query by exact L.
Qed.

(** X13: the empty query filters nothing out.  The page count is that of
    all invoices that have a customer (fewer than [2^53]); the first page
    holds the six newest of them (or all, if fewer): it is the first six
    rows of an arrangement of all of them by date, descending; and the
    customer listing shows every customer of the store. *)
Theorem empty_query_matches_everything
    (e : Engine) (d : Database) (w : World) :
  Lawful e ->
  let all := map listed_invoice (invoices_with_customers d) in
  (Z.of_nat (List.length all) < 2 ^ 53 ->
   fst (fetchInvoicesPages (Pg.execute e d) "" w)
   = inr ((Z.of_nat (List.length all) + 5) / 6))
  /\ (exists rows ordered,
         fst (fetchFilteredInvoices (Pg.execute e d) "" (inject_Z 1) w)
         = inr rows
         /\ Permutation ordered all
         /\ newest_first ordered
         /\ rows = firstn 6 ordered)
  /\ exists rows,
      fst (fetchFilteredCustomers (Pg.execute e d) "" w) = inr rows
      /\ forall c,
          In c (map listed_customer rows) <-> In c (customers_table d).
Proof.
  intros L all. split; [| split].
  - intro Hn. rewrite fetchInvoicesPages_value by reflexivity.
    rewrite searched_rows_empty_query by exact L. fold all.
    apply f_equal, pages_division. lia.
  - destruct (search_order e d "" (Some (6, inject_Z ((1 - 1) * 6))) L)
      as [P S].
    rewrite searched_rows_empty_query in P by exact L.
    eexists _, _. split; [| split; [exact P | split; [exact S |]]].
    + apply fetchFilteredInvoices_window;
        [reflexivity | lia | vm_compute; reflexivity].
    + reflexivity.
  - destruct (fetchFilteredCustomers_keys e d "" w L eq_refl)
      as (rows & E & P & _).
    exists rows. split; [exact E |]. intro c.
    rewrite filter_all in P.
    2: { apply Forall_forall. intros r _. unfold Pg.customer_matches.
         now rewrite ilike_empty_query by exact L. }
    rewrite <- left_join_customers. split.
    + intro H. now apply (Permutation_in _ P), group_keys_sound in H.
    + intro H. apply (Permutation_in _ (Permutation_sym P)).
      now apply group_keys_complete.
Qed.

Lemma empty_query_matches_everything_witness :
  exists rows ordered,
    fst (fetchFilteredInvoices (Pg.execute Pg.C_locale Sample.store) ""
           (inject_Z 1) fresh)
    = inr rows
    /\ Permutation ordered
         (map listed_invoice (invoices_with_customers Sample.store))
    /\ newest_first ordered
    /\ rows = firstn 6 ordered.
Proof.
  exact (proj1 (proj2 (empty_query_matches_everything Pg.C_locale
                         Sample.store fresh C_locale_lawful))).
Defined.

(** The half-cent bound for amounts of either sign. *)
Lemma cents_error (amount : Z) :
  Z.abs amount <= exact_cents ->
  (Qabs (Double.div (Double.of_integer amount) (100 # 1) * (100 # 1)
         - inject_Z amount) < 1 # 2)%Q.
Proof.
  intro H.
  assert (C : amount = 0 \/ amount = exact_cents \/ amount = - exact_cents
              \/ 0 < amount < exact_cents \/ 0 < - amount < exact_cents)
    by lia.
  destruct C as [-> | [-> | [-> | [C | C]]]].
  - vm_compute. reflexivity.
  - vm_compute. reflexivity.
  - vm_compute. reflexivity.
  - unfold Double.of_integer. unfold exact_cents in H.
    rewrite round_integer by lia. now apply cents_error_positive.
  - remember (- amount) as x eqn:Ex.
    assert (Ea : amount = - x) by lia. clear Ex. subst amount.
    unfold Double.of_integer. unfold exact_cents in H.
    rewrite round_integer by lia. rewrite div_opp.
    pose proof (cents_error_positive x C) as E.
    rewrite <- Qabs_opp.
    assert (Q : (- (- Double.div (inject_Z x) (100 # 1) * (100 # 1)
                    - inject_Z (- x))
                 == Double.div (inject_Z x) (100 # 1) * (100 # 1)
                    - inject_Z x)%Q).
    { rewrite inject_Z_opp. ring. }
    now rewrite Q.
Qed.

(** X14: when the store holds an invoice with the identifier,
    [fetchInvoiceById] on a working database returns such an invoice, with
    its customer reference and status unchanged and its amount converted
    from cents to dollars in doubles: for an amount of at most
    [exact_cents] in magnitude the returned number is within half a cent
    of the stored amount, and for a whole number of dollars below [2^53]
    cents it is exact. *)
Theorem fetchInvoiceById_found
    (e : Engine) (d : Database) (id : string) (w : World) :
  (exists i, In i (invoices_table d) /\ invoices.id i = id) ->
  exists j dollars,
    In j (invoices_table d) /\ invoices.id j = id
    /\ fst (fetchInvoiceById (Pg.execute e d) id w)
       = inr (Some {| InvoiceForm.id := id;
                      InvoiceForm.customer_id := invoices.customer_id j;
                      InvoiceForm.amount := dollars;
                      InvoiceForm.status := invoices.status j |})
    /\ (Z.abs (invoices.amount j) <= exact_cents ->
        (Qabs (dollars * (100 # 1) - inject_Z (invoices.amount j))
         < 1 # 2)%Q)
    /\ (forall whole,
           invoices.amount j = 100 * whole ->
           Z.abs (invoices.amount j) < 2 ^ 53 ->
           dollars = inject_Z whole).
Proof.
  intros (i & Hi & Ei).
  unfold fetchInvoiceById, try_catch.
  erewrite resolved_statement_continues by reflexivity.
  unfold ret, fst, first.
  destruct (filter (fun i => String.eqb (invoices.id i) id) (invoices_table d))
    as [| j l] eqn:E.
  - exfalso. assert (H : In i []); [| destruct H].
    rewrite <- E. apply filter_In. split; [exact Hi |].
    now apply String.eqb_eq.
  - assert (Hj : In j (invoices_table d) /\ invoices.id j = id).
    { assert (H : In j (j :: l)) by now left.
      rewrite <- E in H. apply filter_In in H. destruct H as [H1 H2].
      apply String.eqb_eq in H2. now split. }
    destruct Hj as [Hj Ej].
    exists j, (Double.div (Double.of_integer (invoices.amount j)) (100 # 1)).
    split; [exact Hj |]. split; [exact Ej |]. split; [| split].
    + cbn [map hd_error InvoiceForm.with_amount InvoiceForm.id
           InvoiceForm.customer_id InvoiceForm.amount InvoiceForm.status].
      now rewrite Ej.
    + apply cents_error.
    + intros whole Ew Hb. unfold Double.of_integer.
      rewrite round_integer by exact Hb. rewrite Ew.
      unfold Double.div.
      rewrite (round_eq (inject_Z (100 * whole) / (100 # 1))
                 (inject_Z whole)).
      * apply round_integer. lia.
      * rewrite inject_Z_mult. change (inject_Z 100) with (100 # 1). field.
Qed.

Lemma fetchInvoiceById_found_witness :
  exists j dollars,
    In j (invoices_table Sample.store) /\ invoices.id j = "i2"
    /\ fst (fetchInvoiceById (Pg.execute Pg.C_locale Sample.store) "i2"
              fresh)
       = inr (Some {| InvoiceForm.id := "i2";
                      InvoiceForm.customer_id := invoices.customer_id j;
                      InvoiceForm.amount := dollars;
                      InvoiceForm.status := invoices.status j |}).
Proof.
  destruct (fetchInvoiceById_found Pg.C_locale Sample.store "i2" fresh)
    as (j & dollars & Hj & Ej & E & _).
  - eexists. split; [right; left; reflexivity | reflexivity].
  - exists j, dollars. auto.
Defined.






(** X16: for a query that is a text and whose characters, once folded,
    include no [%], [_] or backslash, the invoice filter is a plain
    case-insensitive substring test: a joined row passes exactly when the
    folded characters of the query occur in those of the customer's name
    or email or of the invoice's amount, date or status.  What a character
    is and how it folds is the engine's affair. *)
Theorem invoice_filter_is_substring_test
    (e : Engine) (query : string) (i : invoices.row) (c : customers.row) :
  Lawful e ->
  Pg.valid_text query = true ->
  Forall (fun ch => literal ch = true) (characters e query) ->
  (Pg.invoice_matches e ("%" ++ query ++ "%") (i, c) = true
   <-> exists column,
        In column [customers.name c; customers.email c;
                   Number_toString (invoices.amount i);
                   Date.text (invoices.date i);
                   Status_text (invoices.status i)]
        /\ occurs_in (characters e query) (characters e column)).
Proof.
  intros L V F. unfold Pg.invoice_matches.
  rewrite !orb_true_iff, !(fun col => ilike_substring e col query L V F).
  split.
  - intros [[[[H | H] | H] | H] | H]; eexists; (split; [| exact H]);
      cbn; auto 6.
  - intros (column & Hin & H). cbn in Hin.
    destruct Hin as [<- | [<- | [<- | [<- | [<- | []]]]]]; auto 6.
Qed.

Lemma invoice_filter_is_substring_test_witness :
  Pg.invoice_matches Pg.C_locale ("%" ++ "LiC" ++ "%")
    (Sample.invoice "i1" "c1" 1500 2023 1 5 paid, Sample.alice) = true
  <-> exists column,
      In column [customers.name Sample.alice; customers.email Sample.alice;
                 Number_toString 1500;
                 Date.text {| Date.year := 2023; Date.month := 1;
                              Date.day := 5 |};
                 Status_text paid]
      /\ occurs_in (characters Pg.C_locale "LiC")
           (characters Pg.C_locale column).
Proof.
  apply (invoice_filter_is_substring_test Pg.C_locale "LiC"
           (Sample.invoice "i1" "c1" 1500 2023 1 5 paid) Sample.alice).
  - exact C_locale_lawful.
  - reflexivity.
  - repeat constructor.
Defined.

(** ** The Y axis depends on the revenue values only *)

Lemma Math_max_permutation (xs ys : list Z) :
  Permutation xs ys -> Math_max xs = Math_max ys.
Proof.
  intro P. destruct xs as [| x xs].
  - apply Permutation_nil in P. now subst.
  - destruct ys as [| y ys];
      [apply Permutation_sym, Permutation_nil in P; discriminate |].
    destruct (Math_max_nonempty (x :: xs)) as (m & -> & Hm1 & Hm2);
      [discriminate |].
    destruct (Math_max_nonempty (y :: ys)) as (m' & -> & Hm1' & Hm2');
      [discriminate |].
    f_equal. apply Z.le_antisymm.
    + apply Hm2'. eapply Permutation_in; eassumption.
    + apply Hm2. eapply Permutation_in; [symmetry |]; eassumption.
Qed.

(** X17: [generateYAxis] looks at the revenue values only: two lists of
    records whose values agree up to order give the same axis, whatever
    their month labels and their order. *)
Theorem generateYAxis_values_only (r1 r2 : list Revenue) :
  Permutation (map revenue r1) (map revenue r2) ->
  generateYAxis r1 = generateYAxis r2.
Proof.
  intro P. unfold generateYAxis.
  now rewrite (Math_max_permutation _ _ P).
Qed.

Lemma generateYAxis_values_only_witness :
  generateYAxis [{| month := "Jan"; revenue := 1200 |};
                 {| month := "Feb"; revenue := 4500 |}]
  = generateYAxis [{| month := "Nov"; revenue := 4500 |};
                   {| month := "Dec"; revenue := 1200 |}].
Proof.
  apply generateYAxis_values_only. apply perm_swap.
Defined.

(** ** Currency strings determine the amount *)

Lemma Number_toString_inj (x y : Z) :
  Number_toString x = Number_toString y -> x = y.
Proof.
  unfold Number_toString. intro H.
  apply DecimalZ.to_int_inj.
  pose proof (NilEmpty.isi (Z.to_int x)) as Hx.
  rewrite H, NilEmpty.isi in Hx. now injection Hx.
Qed.

Lemma numeral_chars_no_point (n : Z) :
  0 <= n ->
  Forall (fun c => Ascii.eqb c "." = false)
    (list_ascii_of_string (Number_toString n)).
Proof.
  intro Hn. unfold Number_toString.
  destruct n as [| p | p]; [| | lia]; cbn [Z.to_int NilEmpty.string_of_int].
  - repeat constructor.
  - induction (Pos.to_uint p); cbn; constructor; (reflexivity || assumption).
Qed.

(** The characters of a rendered amount, separators dropped, after the
    sign and the currency symbol. *)
Lemma formatCurrency_chars (amount : Z) :
  Z.abs amount <= exact_cents ->
  exists sign,
    sign = (if amount <? 0 then ["-"%char] else [])
    /\ list_ascii_of_string (formatCurrency amount)
       = (sign ++ "$"%char :: list_ascii_of_string
                                (Intl.grouped (Z.abs amount / 100))
            ++ "."%char
               :: list_ascii_of_string
                    (Number_toString (Z.abs amount mod 100 / 10))
            ++ list_ascii_of_string
                 (Number_toString ((Z.abs amount mod 100) mod 10)))%list.
Proof.
  intro Hb. eexists. split; [reflexivity |].
  rewrite formatCurrency_cents by exact Hb.
  pose proof (Z.mod_pos_bound (Z.abs amount) 100 ltac:(lia)).
  pose proof (Z.mod_pos_bound (Z.abs amount mod 100) 10 ltac:(lia)).
  pose proof (Z.div_mod (Z.abs amount mod 100) 10 ltac:(lia)).
  unfold Intl.fraction2. rewrite !digit_numeral by lia.
  rewrite !chars_append. destruct (amount <? 0); reflexivity.
Qed.

Lemma split_at_first {A} (x : A) (l1 l2 r1 r2 : list A) :
  ~ In x l1 -> ~ In x l2 ->
  (l1 ++ x :: r1 = l2 ++ x :: r2)%list -> l1 = l2 /\ r1 = r2.
Proof.
  revert l2. induction l1 as [| a l1 IH]; intros [| b l2] H1 H2 E; cbn in E.
  - injection E as ->. now split.
  - injection E as -> _. exfalso. apply H2. now left.
  - injection E as -> _. exfalso. apply H1. now left.
  - injection E as -> E.
    destruct (IH l2) as [-> ->]; [intro; apply H1; now right
                                 | intro; apply H2; now right | exact E |].
    now split.
Qed.

Lemma chars_inj (s t : string) :
  list_ascii_of_string s = list_ascii_of_string t -> s = t.
Proof.
  intro H. apply (f_equal string_of_list_ascii) in H.
  now rewrite !string_of_list_ascii_of_string in H.
Qed.

Lemma digit_char (d : Z) :
  0 <= d <= 9 ->
  exists ch, list_ascii_of_string (Number_toString d) = [ch]
             /\ is_comma ch = false.
Proof.
  intro H.
  assert (d = 0 \/ d = 1 \/ d = 2 \/ d = 3 \/ d = 4 \/ d = 5 \/ d = 6
          \/ d = 7 \/ d = 8 \/ d = 9) as C by lia.
  repeat (destruct C as [-> | C]; [eexists; split; reflexivity |]).
  subst. eexists; split; reflexivity.
Qed.

Lemma grouped_digits (n : Z) :
  0 <= n ->
  filter (fun c => negb (is_comma c)) (list_ascii_of_string (Intl.grouped n))
  = list_ascii_of_string (Number_toString n).
Proof.
  intro Hn. destruct (grouped_spec n Hn) as (E & _).
  rewrite <- E. now rewrite list_ascii_of_string_of_list_ascii.
Qed.

Lemma not_in_of_eqb (x : ascii) (l : list ascii) :
  Forall (fun c => Ascii.eqb c x = false) l -> ~ In x l.
Proof.
  intros F H. rewrite Forall_forall in F. specialize (F x H).
  now rewrite Ascii.eqb_refl in F.
Qed.

Lemma formatCurrency_inj (a b : Z) :
  Z.abs a <= exact_cents -> Z.abs b <= exact_cents ->
  formatCurrency a = formatCurrency b -> a = b.
Proof.
  intros BA BB H. apply (f_equal list_ascii_of_string) in H.
  destruct (formatCurrency_chars a BA) as (sa & Esa & Ea).
  destruct (formatCurrency_chars b BB) as (sb & Esb & Eb).
  clear BA BB.
  rewrite Ea, Eb in H. clear Ea Eb.
  set (Da := Z.abs a / 100) in *. set (Db := Z.abs b / 100) in *.
  set (xa := Z.abs a mod 100 / 10) in *.
  set (xb := Z.abs b mod 100 / 10) in *.
  set (ya := (Z.abs a mod 100) mod 10) in *.
  set (yb := (Z.abs b mod 100) mod 10) in *.
  pose proof (Z.mod_pos_bound (Z.abs a) 100 ltac:(lia)) as Ba.
  pose proof (Z.mod_pos_bound (Z.abs b) 100 ltac:(lia)) as Bb.
  pose proof (Z.div_mod (Z.abs a mod 100) 10 ltac:(lia)) as Ma.
  pose proof (Z.div_mod (Z.abs b mod 100) 10 ltac:(lia)) as Mb.
  pose proof (Z.mod_pos_bound (Z.abs a mod 100) 10 ltac:(lia)) as Ya.
  pose proof (Z.mod_pos_bound (Z.abs b mod 100) 10 ltac:(lia)) as Yb.
  pose proof (Z.div_mod (Z.abs a) 100 ltac:(lia)) as Qa.
  pose proof (Z.div_mod (Z.abs b) 100 ltac:(lia)) as Qb.
  assert (HDa : 0 <= Da) by (apply Z.div_pos; lia).
  assert (HDb : 0 <= Db) by (apply Z.div_pos; lia).
  assert (Hxa : 0 <= xa <= 9) by (unfold xa; lia).
  assert (Hxb : 0 <= xb <= 9) by (unfold xb; lia).
  assert (Hya : 0 <= ya <= 9) by (unfold ya; lia).
  assert (Hyb : 0 <= yb <= 9) by (unfold yb; lia).
  destruct (digit_char xa Hxa) as (cxa & Exa & Nxa).
  destruct (digit_char xb Hxb) as (cxb & Exb & Nxb).
  destruct (digit_char ya Hya) as (cya & Eya & Nya).
  destruct (digit_char yb Hyb) as (cyb & Eyb & Nyb).
  assert (Sign : (a <? 0) = (b <? 0)
                 /\ (list_ascii_of_string (Intl.grouped Da)
                       ++ "."%char :: [cxa; cya]
                     = list_ascii_of_string (Intl.grouped Db)
                         ++ "."%char :: [cxb; cyb])%list).
  { rewrite Exa, Eya, Exb, Eyb in H. subst sa sb.
    destruct (a <? 0), (b <? 0); cbn in H; try discriminate;
      injection H as H; now split. }
  destruct Sign as [Sign Body].
  apply (f_equal (filter (fun c => negb (is_comma c)))) in Body.
  rewrite !filter_app, !grouped_digits in Body by assumption.
  cbn [filter] in Body.
  change (is_comma ".") with false in Body.
  rewrite Nxa, Nya, Nxb, Nyb in Body. cbn [negb] in Body.
  apply split_at_first in Body;
    try (apply not_in_of_eqb, numeral_chars_no_point; assumption).
  destruct Body as [ED [= -> ->]].
  apply chars_inj, Number_toString_inj in ED.
  assert (Ex : xa = xb)
    by (apply Number_toString_inj, chars_inj; congruence).
  assert (Ey : ya = yb)
    by (apply Number_toString_inj, chars_inj; congruence).
  assert (Habs : Z.abs a = Z.abs b) by (unfold Da, Db, xa, xb, ya, yb in *; lia).
  destruct (Z.ltb_spec a 0), (Z.ltb_spec b 0); try discriminate; lia.
Qed.

(** X18: up to [exact_cents] in magnitude a currency string determines
    the amount: [formatCurrency] renders two such amounts as the same
    string only when they are the same amount.  Beyond, neighbouring
    amounts share the double of their quotient by 100 and are rendered
    alike: 7036874417766401 and 7036874417766402 both give
    ["$70,368,744,177,664.02"]. *)
Theorem formatCurrency_injective :
  (forall a b : Z,
      Z.abs a <= exact_cents -> Z.abs b <= exact_cents ->
      (formatCurrency a = formatCurrency b <-> a = b))
  /\ formatCurrency 7036874417766401 = formatCurrency 7036874417766402.
Proof.
  split; [| vm_compute; reflexivity].
  intros a b BA BB. split; [now apply formatCurrency_inj | now intros ->].
Qed.

Lemma formatCurrency_injective_witness :
  Z.abs 125000 <= exact_cents
  /\ Z.abs 125001 <= exact_cents
  /\ (formatCurrency 125000 = formatCurrency 125001 <-> 125000 = 125001).
Proof.
  assert (H : Z.abs 125000 <= exact_cents) by (vm_compute; discriminate).
  assert (H' : Z.abs 125001 <= exact_cents) by (vm_compute; discriminate).
  split; [exact H |]. split; [exact H' |].
  exact (proj1 formatCurrency_injective 125000 125001 H H').
Defined.

(** ** Settlement order and wildcards *)

(** X19: the order in which the three statements of [fetchCardData] settle
    never changes what the caller gets: the same summary, or the same
    generic error. *)
Theorem fetchCardData_order_irrelevant
    (db : Sql) (race race' : nat) (w : World) :
  fst (fetchCardData db race w) = fst (fetchCardData db race' w).
Proof.
  unfold_queries. cbn [issued console].
  destruct (db CountInvoices) as [e0 | [| r0 l0]];
    destruct (db CountCustomers) as [e1 | [| r1 l1]];
    destruct (db SumInvoiceStatus) as [e2 | [| r2 l2]];
    reflexivity.
Qed.





